(** * Worst-case stack analyzer (WCS.py): model and verified properties

    The analyzer keeps one Python dict per function (a [CallNode]) inside
    the three namespaces of [CallGraph]; every pass mutates those dicts in
    place and call edges ([r_calls]) are aliases of them.  The model keeps
    the call graph as the shared store and names a node by the place it is
    registered at ([node_ref]), so that every write of the source is a
    write to the store and every alias is a reference into it. *)

From Stdlib Require Import ZArith String.
From stdpp Require Import base option list strings gmap relations.

#[local] Set Warnings "-clear-no-such-hyp".
Local Open Scope Z_scope.
Local Open Scope string_scope.

(** ** Exceptions *)

(** What the interpreter can raise on the paths modelled here.
    [RecursionError] is the interpreter's bound on the depth of the
    recursion of [calc_wcs]; [Dangling] is a reference to a record that is
    not registered (no Python object can be one: it only shows that the
    model's references stay inside the graph). *)
Inductive error :=
  | Exception (msg : string)
  | KeyError (key : string)
  | TypeError
  | RecursionError
  | Dangling.

Inductive result (A : Type) :=
  | Ok (a : A)
  | Err (e : error).
Arguments Ok {A} a.
Arguments Err {A} e.

Global Instance result_bind : MBind result := λ A B k m,
  match m with
  | Ok a => k a
  | Err e => Err e
  end.

(** [d[key]] on an optional entry of a dict. *)
Definition key {A} (k : string) (o : option A) : result A :=
  match o with
  | Some a => Ok a
  | None => Err (KeyError k)
  end.

Fixpoint foldM {A B} (f : A → B → result A) (a : A) (l : list B) : result A :=
  match l with
  | [] => Ok a
  | b :: l' => a' ← f a b; foldM f a' l'
  end.

(** ** Python dicts with string keys

    Insertion ordered: assigning to a new key appends, assigning to a key
    that exists replaces its value where it stands. *)
Definition dict (V : Type) := list (string * V).

Fixpoint dict_get {V} (k : string) (d : dict V) : option V :=
  match d with
  | [] => None
  | (k', v) :: d' => if decide (k' = k) then Some v else dict_get k d'
  end.

Definition dict_mem {V} (k : string) (d : dict V) : bool :=
  bool_decide (is_Some (dict_get k d)).

Fixpoint dict_set {V} (k : string) (v : V) (d : dict V) : dict V :=
  match d with
  | [] => [(k, v)]
  | (k', v') :: d' =>
      if decide (k' = k) then (k', v) :: d' else (k', v') :: dict_set k v d'
  end.

(** In-place mutation of the value stored under [k]. *)
Fixpoint dict_alter {V} (h : V → V) (k : string) (d : dict V) : dict V :=
  match d with
  | [] => []
  | (k', v) :: d' =>
      if decide (k' = k) then (k', h v) :: d' else (k', v) :: dict_alter h k d'
  end.

Definition dict_keys {V} (d : dict V) : list string := d.*1.

(** ** Function records *)

(** A stack usage as stored under ['wcs']: an int or the str ['unbounded']. *)
Inductive wcs_value :=
  | Bounded (n : Z)
  | Unbounded.

Global Instance wcs_value_eq_dec : EqDecision wcs_value.
Proof. solve_decision. Defined.

(** A reference to a function record: the dict stored at [globals[fxn]] or
    at [locals[fxn][tu]]. *)
Inductive node_ref :=
  | InGlobals (fxn : string)
  | InLocals (fxn tu : string).

Global Instance node_ref_eq_dec : EqDecision node_ref.
Proof. solve_decision. Defined.

(** One [CallNode]; an entry that the dict may lack is an [option].
    ['calls'] is a set of names, kept as the list of its elements in the
    order in which loops visit it; ['unresolved_calls'] is a set; and
    ['r_calls'] is a list of the records called, kept as references. *)
Record CallNode := {
  tu : string;
  name : string;
  binding : string;
  demangledName : option string;
  calls : option (list string);
  has_ptr_call : option bool;
  local_stack : option Z;
  clob_sp : option Z;
  is_manual : option bool;
  r_calls : option (list node_ref);
  unresolved_calls : option (gset string);
  wcs : option wcs_value
}.

Definition set_has_ptr_call (b : bool) (d : CallNode) : CallNode :=
  {| tu := tu d; name := name d; binding := binding d;
     demangledName := demangledName d; calls := calls d;
     has_ptr_call := Some b; local_stack := local_stack d;
     clob_sp := clob_sp d; is_manual := is_manual d; r_calls := r_calls d;
     unresolved_calls := unresolved_calls d; wcs := wcs d |}.

Definition set_local_stack (n : Z) (d : CallNode) : CallNode :=
  {| tu := tu d; name := name d; binding := binding d;
     demangledName := demangledName d; calls := calls d;
     has_ptr_call := has_ptr_call d; local_stack := Some n;
     clob_sp := clob_sp d; is_manual := is_manual d; r_calls := r_calls d;
     unresolved_calls := unresolved_calls d; wcs := wcs d |}.

Definition set_r_calls (l : list node_ref) (d : CallNode) : CallNode :=
  {| tu := tu d; name := name d; binding := binding d;
     demangledName := demangledName d; calls := calls d;
     has_ptr_call := has_ptr_call d; local_stack := local_stack d;
     clob_sp := clob_sp d; is_manual := is_manual d; r_calls := Some l;
     unresolved_calls := unresolved_calls d; wcs := wcs d |}.

Definition set_unresolved_calls (u : gset string) (d : CallNode) : CallNode :=
  {| tu := tu d; name := name d; binding := binding d;
     demangledName := demangledName d; calls := calls d;
     has_ptr_call := has_ptr_call d; local_stack := local_stack d;
     clob_sp := clob_sp d; is_manual := is_manual d; r_calls := r_calls d;
     unresolved_calls := Some u; wcs := wcs d |}.

Definition set_wcs (w : wcs_value) (d : CallNode) : CallNode :=
  {| tu := tu d; name := name d; binding := binding d;
     demangledName := demangledName d; calls := calls d;
     has_ptr_call := has_ptr_call d; local_stack := local_stack d;
     clob_sp := clob_sp d; is_manual := is_manual d; r_calls := r_calls d;
     unresolved_calls := unresolved_calls d; wcs := Some w |}.

(** ** The call graph *)

Record CallGraph := {
  globals : dict CallNode;
  locals : dict (dict CallNode);
  weak : dict CallNode;
  irqs : list string
}.

Definition set_globals (g : dict CallNode) (cg : CallGraph) : CallGraph :=
  {| globals := g; locals := locals cg; weak := weak cg; irqs := irqs cg |}.

Definition set_locals (l : dict (dict CallNode)) (cg : CallGraph) : CallGraph :=
  {| globals := globals cg; locals := l; weak := weak cg; irqs := irqs cg |}.

Definition set_weak (w : dict CallNode) (cg : CallGraph) : CallGraph :=
  {| globals := globals cg; locals := locals cg; weak := w; irqs := irqs cg |}.

(** Reading through a reference, and mutating the record it points to. *)
Definition deref (cg : CallGraph) (r : node_ref) : option CallNode :=
  match r with
  | InGlobals fxn => dict_get fxn (globals cg)
  | InLocals fxn t => l ← dict_get fxn (locals cg); dict_get t l
  end.

Definition update (cg : CallGraph) (r : node_ref) (h : CallNode → CallNode)
    : CallGraph :=
  match r with
  | InGlobals fxn => set_globals (dict_alter h fxn (globals cg)) cg
  | InLocals fxn t => set_locals (dict_alter (dict_alter h t) fxn (locals cg)) cg
  end.

Definition get (cg : CallGraph) (r : node_ref) : result CallNode :=
  match deref cg r with
  | Some d => Ok d
  | None => Err Dangling
  end.

(** The records in the order of the loops
    [for fxn_dict in self.globals.values()] followed by
    [for l_dict in self.locals.values(): for fxn_dict in l_dict.values()]. *)
Definition all_refs (cg : CallGraph) : list node_ref :=
  (InGlobals <$> dict_keys (globals cg)) ++
  flat_map (λ e, InLocals e.1 <$> dict_keys e.2) (locals cg).

(** ** Symbol registration: [CallGraph.read_obj] *)

Module Sym.
Record Symbol := { type : string; binding : string; name : string }.
End Sym.
Abbreviation Symbol := Sym.Symbol.

Definition new_node (t n b : string) : CallNode :=
  {| tu := t; name := n; binding := b; demangledName := None; calls := None;
     has_ptr_call := None; local_stack := None; clob_sp := None;
     is_manual := None; r_calls := None; unresolved_calls := None;
     wcs := None |}.

Definition multiple_declarations (n : string) : error :=
  Exception ("Multiple declarations of " ++ n).

(** The body of the loop over the symbols of the object file. *)
Definition read_obj_symbol (t : string) (cg : CallGraph) (s : Symbol)
    : result CallGraph :=
  let n := Sym.name s in
  if String.eqb (Sym.type s) "FUNC" then
    if String.eqb (Sym.binding s) "GLOBAL" then
      if dict_mem n (globals cg) || dict_mem n (locals cg)
      then Err (multiple_declarations n)
      else Ok (set_globals (dict_set n (new_node t n "GLOBAL") (globals cg)) cg)
    else if String.eqb (Sym.binding s) "LOCAL" then
      if dict_mem n (locals cg) &&
         bool_decide (is_Some (l ← dict_get n (locals cg); dict_get t l))
      then Err (multiple_declarations n)
      else
        let ls := if dict_mem n (locals cg) then locals cg
                  else dict_set n [] (locals cg) in
        Ok (set_locals
              (dict_alter (dict_set t (new_node t n "LOCAL")) n ls) cg)
    else if String.eqb (Sym.binding s) "WEAK" then
      if dict_mem n (weak cg)
      then Err (multiple_declarations n)
      else Ok (set_weak (dict_set n (new_node t n "WEAK") (weak cg)) cg)
    else
      Err (Exception ("Error Unknown Binding " ++ Sym.binding s))
  else Ok cg.

(** [read_obj], given the symbols [read_symbols] returned for the file. *)
Definition read_obj (cg : CallGraph) (t : string) (symbols : list Symbol)
    : result CallGraph :=
  foldM (read_obj_symbol t) cg symbols.

(** ** Lookup: [CallGraph.find_fxn] *)

Definition find_fxn (cg : CallGraph) (t fxn : string) : option node_ref :=
  if dict_mem fxn (globals cg) then Some (InGlobals fxn)
  else match l ← dict_get fxn (locals cg); dict_get t l with
       | Some _ => Some (InLocals fxn t)
       | None => None
       end.

(** ** Manual stack usage: [CallGraph.read_manual] *)

Definition manual_node (fxn : string) (stack_sz : Z) : CallNode :=
  {| wcs := Some (Bounded stack_sz); calls := Some [];
     has_ptr_call := Some false; local_stack := Some stack_sz;
     is_manual := Some true; name := fxn; demangledName := Some fxn;
     tu := "#MANUAL"; binding := "GLOBAL";
     clob_sp := None; r_calls := None; unresolved_calls := None |}.

(** One line of a manual file, split into the name and [int(stack_sz)]. *)
Definition read_manual_line (cg : CallGraph) (line : string * Z)
    : result CallGraph :=
  let '(fxn, stack_sz) := line in
  if dict_mem fxn (globals cg)
  then Err (Exception ("Redeclared Function " ++ fxn))
  else Ok (set_globals (dict_set fxn (manual_node fxn stack_sz) (globals cg)) cg).

Definition read_manual (cg : CallGraph) (lines : list (string * Z))
    : result CallGraph :=
  foldM read_manual_line cg lines.

(** ** Call resolution: [CallGraph.resolve_all_calls] *)

(** The body of the loop [for call in fxn_dict2['calls']] of the nested
    [resolve_calls], for the record at [r], whose ['tu'] is [t]. *)
Definition resolve_call (r : node_ref) (t : string) (cg : CallGraph)
    (call : string) : CallGraph :=
  match find_fxn cg t call with
  | Some call_dict =>
      update cg r (λ d, match r_calls d with
                        | Some l => set_r_calls (l ++ [call_dict]) d
                        | None => d
                        end)
  | None =>
      update cg r (λ d, match unresolved_calls d with
                        | Some u => set_unresolved_calls ({[call]} ∪ u) d
                        | None => d
                        end)
  end.

(** The nested [resolve_calls]; [calls] lists the set stored under
    ['calls'] in the order in which the loop visits it. *)
Definition resolve_calls (cg : CallGraph) (r : node_ref) : CallGraph :=
  match deref cg r with
  | None => cg
  | Some d =>
      let cg1 := update (update cg r (set_r_calls [])) r (set_unresolved_calls ∅) in
      match calls d with
      | None => cg1
      | Some cs => foldl (resolve_call r (tu d)) cg1 cs
      end
  end.

Definition resolve_all_calls (cg : CallGraph) : CallGraph :=
  foldl resolve_calls cg (all_refs cg).

(** ** The worst-case stack: [calc_wcs] *)

(** How the loop over ['r_calls'] ends: by the [return] inside it, or by
    running to its end with the largest callee in [call_max]. *)
Inductive loop_exit :=
  | Returned (cg : CallGraph)
  | Finished (cg : CallGraph) (call_max : Z).

(** [for unresolved_call in call_dict['unresolved_calls']:
       fxn_dict2['unresolved_calls'].add(unresolved_call)] *)
Definition propagate (fxn : node_ref) (cg : CallGraph) (us : list string)
    : result CallGraph :=
  foldM (λ cg' unresolved_call,
           d ← get cg' fxn;
           u ← key "unresolved_calls" (unresolved_calls d);
           Ok (update cg' fxn (set_unresolved_calls ({[unresolved_call]} ∪ u))))
        cg us.

(** The loop [for call_dict in fxn_dict2['r_calls']]; [rec] is the
    recursive call [calc_wcs(call_dict, parents + [fxn_dict2])]. *)
Fixpoint calls_loop (rec : CallGraph → node_ref → result CallGraph)
    (fxn : node_ref) (cs : list node_ref) (cg : CallGraph) (call_max : Z)
    : result loop_exit :=
  match cs with
  | [] => Ok (Finished cg call_max)
  | call_dict :: cs' =>
      cg1 ← rec cg call_dict;
      c ← get cg1 call_dict;
      w ← key "wcs" (wcs c);
      match w with
      | Unbounded => Ok (Returned (update cg1 fxn (set_wcs Unbounded)))
      | Bounded k =>
          us ← key "unresolved_calls" (unresolved_calls c);
          cg2 ← propagate fxn cg1 (elements us);
          calls_loop rec fxn cs' cg2 (Z.max call_max k)
      end
  end.

(** [calc_wcs(fxn_dict2, parents)].  [fuel] bounds the depth of the
    recursion.  The test [fxn_dict2 in parents] compares dicts with [==];
    the records of a graph differ in their ['tu'], ['name'] or ['binding'],
    so it holds exactly when [parents] has a reference to the same record. *)
Fixpoint calc_wcs (fuel : nat) (cg : CallGraph) (fxn : node_ref)
    (parents : list node_ref) : result CallGraph :=
  match fuel with
  | O => Err RecursionError
  | S fuel' =>
      d ← get cg fxn;
      if bool_decide (is_Some (wcs d)) then Ok cg else
      let cg1 := if bool_decide (is_Some (has_ptr_call d)) then cg
                 else update cg fxn (set_has_ptr_call false) in
      if bool_decide (has_ptr_call d = Some true)
      then Ok (update cg1 fxn (set_wcs Unbounded)) else
      if bool_decide (fxn ∈ parents)
      then Ok (update cg1 fxn (set_wcs Unbounded)) else
      cs ← key "r_calls" (r_calls d);
      ex ← calls_loop (λ cg' c, calc_wcs fuel' cg' c (parents ++ [fxn]))
                      fxn cs cg1 0;
      match ex with
      | Returned cg2 => Ok cg2
      | Finished cg2 call_max =>
          d2 ← get cg2 fxn;
          let cg3 := if bool_decide (is_Some (local_stack d2)) then cg2
                     else update cg2 fxn (set_local_stack 0) in
          let l := default 0 (local_stack d2) in
          let cg4 := update cg3 fxn (set_wcs (Bounded (call_max + l))) in
          match clob_sp d2 with
          | Some k =>
              Ok (update cg4 fxn
                    (set_wcs (Bounded ((call_max + l) + ((call_max + l) + k)))))
          | None => Ok cg4
          end
      end
  end.

(** [CallGraph.calc_all_wcs]: every record in turn, with no ancestors. *)
Definition calc_all_wcs_from (fuel : nat) (cg : CallGraph) : result CallGraph :=
  foldM (λ cg' fxn_dict, calc_wcs fuel cg' fxn_dict []) cg (all_refs cg).

(** A chain of nested calls never visits a record twice, so its depth
    stays below the number of records. *)
Definition calc_all_wcs (cg : CallGraph) : result CallGraph :=
  calc_all_wcs_from (S (length (all_refs cg))) cg.

(** ** The budget check: [CallGraph.check_stack_size] *)

Inductive verdict :=
  | TooSmall (required provided : Z) (irq_name fxn_name : string)
  | Sufficient (usage provided : Z).

Record maxima := {
  max_stack : Z;
  max_irq : Z;
  max_stack_fxn_name : string;
  max_stack_irq_name : string
}.

(** The body of [for d in d_list].  Both comparisons have an int on
    their right; with the str ['unbounded'] on the left, [>] raises. *)
Definition check_one (cg : CallGraph) (m : maxima) (r : node_ref)
    : result maxima :=
  d ← get cg r;
  let irq := String.prefix "_irq" (name d) in
  m1 ← (if negb irq then
          w ← key "wcs" (wcs d);
          match w with
          | Unbounded => Err TypeError
          | Bounded n =>
              Ok (if bool_decide (max_stack m < n)
                  then {| max_stack := n; max_irq := max_irq m;
                          max_stack_fxn_name := name d;
                          max_stack_irq_name := max_stack_irq_name m |}
                  else m)
          end
        else Ok m);
  if irq then
    w ← key "wcs" (wcs d);
    match w with
    | Unbounded => Err TypeError
    | Bounded n =>
        Ok (if bool_decide (max_irq m1 < n)
            then {| max_stack := max_stack m1; max_irq := n;
                    max_stack_fxn_name := max_stack_fxn_name m1;
                    max_stack_irq_name := name d |}
            else m1)
    end
  else Ok m1.

Definition check_stack_size (cg : CallGraph) (stack_size : Z) : result verdict :=
  m ← foldM (check_one cg)
        {| max_stack := 0; max_irq := 0;
           max_stack_fxn_name := ""; max_stack_irq_name := "" |}
        (all_refs cg);
  let wcs := max_stack m + max_irq m in
  if bool_decide (stack_size < wcs)
  then Ok (TooSmall wcs stack_size (max_stack_irq_name m) (max_stack_fxn_name m))
  else Ok (Sufficient wcs stack_size).


(** ** Weak symbols: the loop of [main] after [read_obj] *)

(** [for fxn in call_graph.weak.values():
       if fxn['name'] not in call_graph.globals:
           call_graph.globals[fxn['name']] = fxn]
    The record becomes reachable through [globals]; [weak] is not read
    again after this loop. *)
Definition merge_weak_symbol (cg : CallGraph) (k : string) : CallGraph :=
  match dict_get k (weak cg) with
  | Some fxn =>
      if dict_mem (name fxn) (globals cg) then cg
      else set_globals (dict_set (name fxn) fxn (globals cg)) cg
  | None => cg
  end.

Definition merge_weak (cg : CallGraph) : CallGraph :=
  foldl merge_weak_symbol cg (dict_keys (weak cg)).

(** ** Lookup by demangled name: [CallGraph.find_demangled_fxn] *)

Definition has_demangledName (fxn : string) (o : option CallNode) : bool :=
  match o with
  | Some f => bool_decide (demangledName f = Some fxn)
  | None => false
  end.

(** The first loop goes through [globals.values()], the second through
    [locals.values()], looking at [f[tu]] where [tu in f]. *)
Definition find_demangled_fxn (cg : CallGraph) (t fxn : string)
    : option node_ref :=
  match list_find (λ r, has_demangledName fxn (deref cg r) = true)
                  (InGlobals <$> dict_keys (globals cg)) with
  | Some (_, r) => Some r
  | None =>
      match list_find (λ r, has_demangledName fxn (deref cg r) = true)
                      ((λ k, InLocals k t) <$> dict_keys (locals cg)) with
      | Some (_, r) => Some r
      | None => None
      end
  end.

(** ** Frame sizes: [CallGraph.read_su] *)

(** A line of the file as [su_line] matches it: [None] when it does not
    match, else the groups 4 and 5, the latter ([\d+]) through [int]. *)
Definition su_match := option (string * N).

Definition read_su_line (t : string) (cg : CallGraph) (m : su_match)
    : CallGraph :=
  match m with
  | Some (fxn, stack) =>
      match find_demangled_fxn cg t fxn with
      | Some fxn_dict2 => update cg fxn_dict2 (set_local_stack (Z.of_N stack))
      | None => cg
      end
  | None => cg
  end.

Definition read_su (cg : CallGraph) (t : string) (lines : list su_match)
    : CallGraph :=
  foldl (read_su_line t) cg lines.

(** ** Calls and clobbers: [CallGraph.read_rtl] *)

Definition set_demangledName (n : string) (d : CallNode) : CallNode :=
  {| tu := tu d; name := name d; binding := binding d;
     demangledName := Some n; calls := calls d;
     has_ptr_call := has_ptr_call d; local_stack := local_stack d;
     clob_sp := clob_sp d; is_manual := is_manual d; r_calls := r_calls d;
     unresolved_calls := unresolved_calls d; wcs := wcs d |}.

Definition set_calls (l : list string) (d : CallNode) : CallNode :=
  {| tu := tu d; name := name d; binding := binding d;
     demangledName := demangledName d; calls := Some l;
     has_ptr_call := has_ptr_call d; local_stack := local_stack d;
     clob_sp := clob_sp d; is_manual := is_manual d; r_calls := r_calls d;
     unresolved_calls := unresolved_calls d; wcs := wcs d |}.

Definition set_clob_sp (n : Z) (d : CallNode) : CallNode :=
  {| tu := tu d; name := name d; binding := binding d;
     demangledName := demangledName d; calls := calls d;
     has_ptr_call := has_ptr_call d; local_stack := local_stack d;
     clob_sp := Some n; is_manual := is_manual d; r_calls := r_calls d;
     unresolved_calls := unresolved_calls d; wcs := wcs d |}.

Definition set_irqs (l : list string) (cg : CallGraph) : CallGraph :=
  {| globals := globals cg; locals := locals cg; weak := weak cg; irqs := l |}.

(** A line of the file, by the first of the regular expressions
    [function], [static_call], [other_call], [sp_clobber] that matches it,
    tried in this order, with the groups the code reads; for [sp_clobber]
    the int that [eval] returns for group 1. *)
Inductive rtl_line :=
  | FunctionLine (demangled fxn_name : string)
  | StaticCallLine (callee : string)
  | OtherCallLine
  | SpClobberLine (clob_sp_val : Z)
  | PlainLine.

(** The local variable [fxn_dict2]: not assigned yet, [None], or a record. *)
Inductive local_var :=
  | Unassigned
  | NoneValue
  | Record_ (r : node_ref).

Record rtl_state := {
  rtl_graph : CallGraph;
  last_fxn : option string;
  fxn_dict2 : local_var
}.

(** How the loop over the lines goes on: [UnboundLocalError] is what
    reading [fxn_dict2] raises before its first assignment. *)
Inductive rtl_result :=
  | RtlOk (st : rtl_state)
  | RtlRaise (e : error)
  | UnboundLocalError.

(** [s.add(x)] on a set kept as a list. *)
Definition set_add (x : string) (l : list string) : list string :=
  if bool_decide (x ∈ l) then l else l ++ [x].

Definition read_rtl_line (t : string) (st : rtl_state) (line : rtl_line)
    : rtl_result :=
  let cg := rtl_graph st in
  match line with
  | FunctionLine demangled fxn_name =>
      match find_fxn cg t fxn_name with
      | None =>
          RtlOk {| rtl_graph := cg; last_fxn := Some fxn_name;
                   fxn_dict2 := NoneValue |}
      | Some r =>
          let cg1 := if String.prefix "_irq" fxn_name
                     then set_irqs (irqs cg ++ [fxn_name]) cg else cg in
          let cg2 := update cg1 r (set_demangledName demangled) in
          let cg3 := update cg2 r (set_calls []) in
          let cg4 := update cg3 r (set_has_ptr_call false) in
          RtlOk {| rtl_graph := cg4; last_fxn := Some fxn_name;
                   fxn_dict2 := Record_ r |}
      end
  | StaticCallLine callee =>
      match fxn_dict2 st with
      | Unassigned => UnboundLocalError
      | NoneValue => RtlRaise TypeError
      | Record_ r =>
          match deref cg r with
          | None => RtlRaise Dangling
          | Some d =>
              match calls d with
              | None => RtlRaise (KeyError "calls")
              | Some l =>
                  RtlOk {| rtl_graph := update cg r (set_calls (set_add callee l));
                           last_fxn := last_fxn st; fxn_dict2 := fxn_dict2 st |}
              end
          end
      end
  | OtherCallLine =>
      match fxn_dict2 st with
      | Unassigned => UnboundLocalError
      | NoneValue => RtlRaise TypeError
      | Record_ r =>
          RtlOk {| rtl_graph := update cg r (set_has_ptr_call true);
                   last_fxn := last_fxn st; fxn_dict2 := fxn_dict2 st |}
      end
  | SpClobberLine clob_sp_val =>
      match last_fxn st with
      | None => RtlOk st
      | Some fxn_name =>
          match find_fxn cg t fxn_name with
          | None =>
              RtlOk {| rtl_graph := cg; last_fxn := last_fxn st;
                       fxn_dict2 := NoneValue |}
          | Some r =>
              let cg1 := if bool_decide (clob_sp_val < 0)
                         then update cg r (set_clob_sp (Z.abs clob_sp_val))
                         else cg in
              RtlOk {| rtl_graph := cg1; last_fxn := last_fxn st;
                       fxn_dict2 := Record_ r |}
          end
      end
  | PlainLine => RtlOk st
  end.

Fixpoint read_rtl_lines (t : string) (st : rtl_state) (lines : list rtl_line)
    : rtl_result :=
  match lines with
  | [] => RtlOk st
  | line :: lines' =>
      match read_rtl_line t st line with
      | RtlOk st' => read_rtl_lines t st' lines'
      | other => other
      end
  end.

(** [read_rtl], given the lines of the file [tu + rtl_ext]. *)
Definition read_rtl (cg : CallGraph) (t : string) (lines : list rtl_line)
    : rtl_result :=
  read_rtl_lines t {| rtl_graph := cg; last_fxn := None;
                      fxn_dict2 := Unassigned |} lines.
(** * Vocabulary of the properties *)

Local Close Scope string_scope.

(** Keys of a Python dict are unique.  Of the dicts of a graph only the
    outer one of [locals] needs the fact stated: elsewhere a repeated key
    would name the same record twice. *)
Definition unique_keys (cg : CallGraph) : Prop := NoDup (dict_keys (locals cg)).


(** Entries of the record a reference points to. *)
Definition wcs_of (cg : CallGraph) (r : node_ref) : option wcs_value :=
  d ← deref cg r; wcs d.

Definition unresolved_of (cg : CallGraph) (r : node_ref) : gset string :=
  default ∅ (d ← deref cg r; unresolved_calls d).

(** [edge cg f c]: the record of [c] is in the ['r_calls'] of [f]. *)
Definition edge (cg : CallGraph) (f c : node_ref) : Prop :=
  ∃ d cs, deref cg f = Some d ∧ r_calls d = Some cs ∧ c ∈ cs.

(** [on_cycle cg f]: [f] is reachable from itself through resolved calls. *)
Definition on_cycle (cg : CallGraph) (f : node_ref) : Prop := tc (edge cg) f f.

(** [call_max] after the loop over the callees [cs], started at [m]. *)
Definition bounded_value (cg : CallGraph) (c : node_ref) : Z :=
  match wcs_of cg c with
  | Some (Bounded k) => k
  | _ => 0
  end.

Definition call_max_from (cg : CallGraph) (m : Z) (cs : list node_ref) : Z :=
  foldl (λ m c, Z.max m (bounded_value cg c)) m cs.

(** What the last two statements of [calc_wcs] store for a sum [v]. *)
Definition with_clob_sp (v : Z) (clob : option Z) : Z :=
  match clob with
  | Some k => v + (v + k)
  | None => v
  end.

(** A callee the loop has gone past: bounded, its unresolved names copied. *)
Definition callee_done (cg : CallGraph) (f c : node_ref) : Prop :=
  (∃ k, wcs_of cg c = Some (Bounded k)) ∧
  unresolved_of cg c ⊆ unresolved_of cg f.

(** ** The writes of [calc_wcs], one at a time

    Every write [calc_wcs] makes to a record is one of these steps, taken
    in a graph in which the premises of the step hold ([calc_wcs_steps]
    below); the properties of the results are invariants of the steps. *)
Inductive wcs_step (cg : CallGraph) : CallGraph → Prop :=
  | step_default_ptr f d :
      deref cg f = Some d → wcs d = None → has_ptr_call d = None →
      wcs_step cg (update cg f (set_has_ptr_call false))
  | step_ptr_call f d :
      deref cg f = Some d → wcs d = None → has_ptr_call d = Some true →
      wcs_step cg (update cg f (set_wcs Unbounded))
  | step_recursion f d :
      deref cg f = Some d → wcs d = None → has_ptr_call d = Some false →
      on_cycle cg f →
      wcs_step cg (update cg f (set_wcs Unbounded))
  | step_unbounded_callee f d c :
      deref cg f = Some d → wcs d = None ∨ wcs d = Some Unbounded →
      has_ptr_call d = Some false →
      edge cg f c → wcs_of cg c = Some Unbounded →
      wcs_step cg (update cg f (set_wcs Unbounded))
  | step_unresolved f d u c k unresolved_call :
      deref cg f = Some d → wcs d = None → has_ptr_call d = Some false →
      unresolved_calls d = Some u →
      edge cg f c → wcs_of cg c = Some (Bounded k) →
      unresolved_call ∈ unresolved_of cg c →
      wcs_step cg (update cg f (set_unresolved_calls ({[unresolved_call]} ∪ u)))
  | step_default_local f d :
      deref cg f = Some d → wcs d = None → local_stack d = None →
      wcs_step cg (update cg f (set_local_stack 0))
  | step_bounded f d cs l :
      deref cg f = Some d → wcs d = None → has_ptr_call d = Some false →
      r_calls d = Some cs → local_stack d = Some l →
      Forall (callee_done cg f) cs →
      wcs_step cg
        (update cg f
           (set_wcs (Bounded (with_clob_sp (call_max_from cg 0 cs + l)
                                           (clob_sp d))))).

(** What a step may change in a record: it fills in the defaults of
    ['has_ptr_call'] and ['local_stack'], adds unresolved names, and stores
    ['wcs']; a record that has its ['wcs'] stays as it is. *)
Record node_le (d d' : CallNode) : Prop := {
  le_tu : tu d' = tu d;
  le_name : name d' = name d;
  le_binding : binding d' = binding d;
  le_demangledName : demangledName d' = demangledName d;
  le_calls : calls d' = calls d;
  le_clob_sp : clob_sp d' = clob_sp d;
  le_is_manual : is_manual d' = is_manual d;
  le_r_calls : r_calls d' = r_calls d;
  le_has_ptr_call :
    match has_ptr_call d with
    | Some b => has_ptr_call d' = Some b
    | None => has_ptr_call d' = None ∨ has_ptr_call d' = Some false
    end;
  le_local_stack :
    match local_stack d with
    | Some l => local_stack d' = Some l
    | None => local_stack d' = None ∨ local_stack d' = Some 0
    end;
  le_unresolved_calls :
    match unresolved_calls d with
    | Some u => ∃ u', unresolved_calls d' = Some u' ∧ u ⊆ u'
    | None => unresolved_calls d' = None
    end;
  le_wcs : is_Some (wcs d) → d' = d
}.

Record graph_le (cg cg' : CallGraph) : Prop := {
  le_all_refs : all_refs cg' = all_refs cg;
  le_deref r : option_Forall2 node_le (deref cg r) (deref cg' r)
}.

(** The ancestors of a call [calc_wcs(f, parents)]: each of them called,
    directly or through other ancestors, [f]. *)
Definition chain (cg : CallGraph) (parents : list node_ref) (f : node_ref)
    : Prop :=
  ∀ p, p ∈ parents → tc (edge cg) p f.

(** A graph on which [resolve_all_calls] has run: every record has its
    ['r_calls'], which point to records of the graph, and its
    ['unresolved_calls']. *)
Definition resolved (cg : CallGraph) : Prop :=
  ∀ r d, deref cg r = Some d →
    (∃ cs, r_calls d = Some cs ∧ ∀ c, c ∈ cs → is_Some (deref cg c)) ∧
    is_Some (unresolved_calls d).

(** [f] is being evaluated: past the tests of ['wcs'] and of
    ['has_ptr_call'], with no result stored yet. *)
Definition in_progress (cg : CallGraph) (f : node_ref) : Prop :=
  ∃ d, deref cg f = Some d ∧ wcs d = None ∧ has_ptr_call d = Some false.

(** What a call [calc_wcs(f, parents)] that returns has done to the graph:
    a sequence of steps, after which [f] has its ['wcs'], and an ancestor
    that got its ['wcs'] during the call is on a cycle through [f], both
    of them unbounded. *)
Definition calc_post (cg : CallGraph) (f : node_ref) (parents : list node_ref)
    (cg' : CallGraph) : Prop :=
  rtc wcs_step cg cg' ∧
  is_Some (wcs_of cg' f) ∧
  ∀ p, p ∈ parents → wcs_of cg p = None →
    wcs_of cg' p = None ∨
    (wcs_of cg' p = Some Unbounded ∧ wcs_of cg' f = Some Unbounded).

Definition sound_call (rec : CallGraph → node_ref → result CallGraph)
    (parents : list node_ref) : Prop :=
  ∀ cg c cg', rec cg c = Ok cg' → chain cg parents c → calc_post cg c parents cg'.

Definition loop_post (cg : CallGraph) (f : node_ref) (parents cs : list node_ref)
    (call_max : Z) (ex : loop_exit) : Prop :=
  match ex with
  | Returned cg' =>
      rtc wcs_step cg cg' ∧
      wcs_of cg' f = Some Unbounded ∧
      ∀ p, p ∈ parents → wcs_of cg p = None →
        wcs_of cg' p = None ∨ wcs_of cg' p = Some Unbounded
  | Finished cg' call_max' =>
      rtc wcs_step cg cg' ∧
      in_progress cg' f ∧
      (∀ p, p ∈ parents → wcs_of cg p = None → wcs_of cg' p = None) ∧
      Forall (callee_done cg' f) cs ∧
      call_max' = call_max_from cg' call_max cs
  end.

(** The recursive call returns on every resolved graph with [n] records. *)
Definition total_call (rec : CallGraph → node_ref → result CallGraph)
    (parents : list node_ref) (n : nat) : Prop :=
  ∀ cg c, resolved cg → length (all_refs cg) = n → chain cg parents c →
    is_Some (deref cg c) → ∃ cg', rec cg c = Ok cg'.

(** What [resolve_calls] stores in a record [d] of the graph [cg]: the
    records its calls are found at, and the names that are not found. *)
Definition resolved_calls_of (cg : CallGraph) (t : string) (cs : list string)
    : list node_ref :=
  omap (find_fxn cg t) cs.

Definition unresolved_names_of (cg : CallGraph) (t : string) (cs : list string)
    : gset string :=
  list_to_set (filter (λ call, find_fxn cg t call = None) cs).

Definition resolve_node (cg : CallGraph) (d : CallNode) : CallNode :=
  let cs := default [] (calls d) in
  set_unresolved_calls (unresolved_names_of cg (tu d) cs)
    (set_r_calls (resolved_calls_of cg (tu d) cs) d).

(** ** What the results mean *)

(** The two passes of [main] that compute the results. *)
Definition analyze (cg : CallGraph) : result CallGraph :=
  calc_all_wcs (resolve_all_calls cg).

(** A graph as the readers leave it: the only records that already have a
    ['wcs'] are those of [read_manual]. *)
Definition loaded (cg : CallGraph) : Prop :=
  ∀ r d, deref cg r = Some d →
    wcs d = None ∨ ∃ fxn stack_sz, d = manual_node fxn stack_sz.

Definition has_ptr (cg : CallGraph) (f : node_ref) : Prop :=
  ∃ d, deref cg f = Some d ∧ has_ptr_call d = Some true.

(** [f] calls, through resolved calls, a function that has a call through
    a pointer or that is on a cycle. *)
Definition tainted (cg : CallGraph) (f : node_ref) : Prop :=
  ∃ g, rtc (edge cg) f g ∧ (has_ptr cg g ∨ on_cycle cg g).

(** The sum [calc_wcs] stores for [f] once its callees [cs] are done. *)
Definition bounded_result (cg : CallGraph) (d : CallNode) (cs : list node_ref)
    : Z :=
  with_clob_sp (call_max_from cg 0 cs + default 0 (local_stack d)) (clob_sp d).

(** The stored result of [f], if there is one, is accounted for. *)
Definition explained (cg : CallGraph) (f : node_ref) : Prop :=
  match wcs_of cg f with
  | None => True
  | Some Unbounded => tainted cg f
  | Some (Bounded k) =>
      ¬ has_ptr cg f ∧ ¬ on_cycle cg f ∧
      ∃ d cs, deref cg f = Some d ∧ r_calls d = Some cs ∧
              Forall (callee_done cg f) cs ∧ k = bounded_result cg d cs
  end.

(** ** Checks that compute

    The hypotheses of the theorems below quantify over the records of a
    graph; on a given graph they are settled by going through
    [all_refs]. *)
Definition all_records (cg : CallGraph) (P : node_ref → CallNode → bool) : bool :=
  forallb (λ r, match deref cg r with
                | Some d => P r d
                | None => true
                end) (all_refs cg).

Global Instance CallNode_eq_dec : EqDecision CallNode.
Proof. solve_decision. Defined.

Definition loaded_check (cg : CallGraph) : bool :=
  all_records cg (λ _ d,
    match wcs d with
    | None => true
    | Some (Bounded stack_sz) => bool_decide (d = manual_node (name d) stack_sz)
    | Some Unbounded => false
    end).

(** The place of [r] in a list that has every caller before its callees. *)
Fixpoint rank_in (order : list node_ref) (r : node_ref) : nat :=
  match order with
  | [] => 0
  | r' :: rest => if decide (r' = r) then S (length rest) else rank_in rest r
  end.

Definition callers_first (order : list node_ref) (cg : CallGraph) : bool :=
  all_records cg (λ r d,
    forallb (λ c, bool_decide (rank_in order c < rank_in order r)%nat)
            (default [] (r_calls d))).

(** The largest of the callees' results, 0 if there is none: the
    [callee_max] of the specification. *)
Definition callee_max (ks : list Z) : Z :=
  match ks with
  | [] => 0
  | k :: ks' => foldr Z.max k ks'
  end.

(** [find_fxn], returning the record rather than the reference to it. *)
Definition lookup (cg : CallGraph) (unit fxn : string) : option CallNode :=
  r ← find_fxn cg unit fxn; deref cg r.

(** ** Graphs for the examples *)

Local Open Scope string_scope.

(** A record as [read_obj], [read_rtl] and [read_su] leave it. *)
Definition read_node (t n : string) (cs : list string) (ptr : bool)
    (stack : Z) (clob : option Z) : CallNode :=
  {| tu := t; name := n; binding := "GLOBAL"; demangledName := Some n;
     calls := Some cs; has_ptr_call := Some ptr; local_stack := Some stack;
     clob_sp := clob; is_manual := None; r_calls := None;
     unresolved_calls := None; wcs := None |}.

Definition graph_of (gs : dict CallNode) : CallGraph :=
  {| globals := gs; locals := []; weak := []; irqs := [] |}.

(** [A] calls [B] calls [C], with frames of 8, 12 and 4 bytes. *)
Definition abc_graph : CallGraph :=
  graph_of [("A", read_node "main" "A" ["B"] false 8 None);
            ("B", read_node "main" "B" ["C"] false 12 None);
            ("C", read_node "main" "C" [] false 4 None)].

(** [A] calls [B] and [B] calls [A]. *)
Definition ab_cycle_graph : CallGraph :=
  graph_of [("A", read_node "main" "A" ["B"] false 8 None);
            ("B", read_node "main" "B" ["A"] false 12 None)].

(** [F] calls through a pointer, and calls [G]. *)
Definition ptr_graph : CallGraph :=
  graph_of [("F", read_node "main" "F" ["G"] true 8 None);
            ("G", read_node "main" "G" [] false 4 None)].

(** [F] calls [G] and the unknown [x]; [G] calls through a pointer. *)
Definition ptr_callee_graph : CallGraph :=
  graph_of [("F", read_node "main" "F" ["G"; "x"] false 8 None);
            ("G", read_node "main" "G" [] true 4 None)].

(** [A] calls [B] and the unknown [x]; [B] calls the unknown [y]. *)
Definition unresolved_graph : CallGraph :=
  graph_of [("A", read_node "main" "A" ["B"; "x"] false 8 None);
            ("B", read_node "main" "B" ["y"] false 12 None)].

(** [F] has a frame of 8 bytes and moves the stack pointer by 4 more. *)
Definition clob_graph : CallGraph :=
  graph_of [("F", read_node "main" "F" [] false 8 (Some 4))].

(** [caller] has a frame of 8 bytes and calls [__assert_func] only. *)
Definition assert_caller_graph : CallGraph :=
  graph_of [("caller", read_node "main" "caller" ["__assert_func"] false 8 None)].

Local Close Scope string_scope.

Definition r_calls_of (cg : CallGraph) (r : node_ref) : option (list node_ref) :=
  d ← deref cg r; r_calls d.

(** [F] of [ptr_graph] with its results stored, as [analyze] leaves it. *)
Definition ptr_graph_result : CallGraph :=
  match analyze ptr_graph with
  | Ok cg => cg
  | Err _ => ptr_graph
  end.

Local Open Scope string_scope.

(** A unit [a.c] with a local [f], and a graph with a global [f]. *)
Definition local_f_graph : CallGraph :=
  {| globals := []; locals := [("f", [("a.c", new_node "a.c" "f" "LOCAL")])];
     weak := []; irqs := [] |}.

Definition global_f_graph : CallGraph :=
  graph_of [("f", new_node "a.c" "f" "GLOBAL")].

Definition func_symbol (b n : string) : Symbol :=
  {| Sym.type := "FUNC"; Sym.binding := b; Sym.name := n |}.

Local Close Scope string_scope.

(** ** Vocabulary of the further properties *)

Definition empty_graph : CallGraph :=
  {| globals := []; locals := []; weak := []; irqs := [] |}.

(** Every record is stored under its own name (and unit), with the
    binding of its namespace: what [read_obj], the merge of the weak
    symbols and [read_manual] store. *)
Record well_keyed (cg : CallGraph) : Prop := {
  keyed_globals n d :
    dict_get n (globals cg) = Some d →
    name d = n ∧ (binding d = "GLOBAL"%string ∨ binding d = "WEAK"%string);
  keyed_locals n t d :
    deref cg (InLocals n t) = Some d →
    name d = n ∧ tu d = t ∧ binding d = "LOCAL"%string;
  keyed_weak n d :
    dict_get n (weak cg) = Some d → name d = n ∧ binding d = "WEAK"%string
}.

(** What tells the records of a graph apart. *)
Definition identity (d : CallNode) : string * string * string :=
  (tu d, name d, binding d).

(** The frame of the function at [r], as [calc_wcs] reads it. *)
Definition frame (cg : CallGraph) (r : node_ref) : Z :=
  default 0 (d ← deref cg r; local_stack d).

(** [p] is a chain of resolved calls, each function calling the next. *)
Fixpoint call_path (cg : CallGraph) (p : list node_ref) : Prop :=
  match p with
  | f :: ((c :: _) as p') => edge cg f c ∧ call_path cg p'
  | _ => True
  end.

Definition frames (cg : CallGraph) (p : list node_ref) : Z :=
  foldr (λ r s, frame cg r + s) 0 p.

(** Frames and clobbers are byte counts. *)
Definition byte_counts (cg : CallGraph) : Prop :=
  ∀ r d, deref cg r = Some d →
    0 ≤ default 0 (local_stack d) ∧ 0 ≤ default 0 (clob_sp d).

(** The largest result among the records of [rs] that are interrupt
    handlers ([irq = true]) or are not, and 0 if that exceeds them all. *)
Definition is_irq (cg : CallGraph) (r : node_ref) : bool :=
  from_option (λ d, String.prefix "_irq" (name d)) false (deref cg r).

Definition worst (cg : CallGraph) (irq : bool) (rs : list node_ref) : Z :=
  foldl Z.max 0
    (bounded_value cg <$> filter (λ r, is_irq cg r = irq) rs).

Definition required (v : verdict) : Z :=
  match v with
  | TooSmall n _ _ _ => n
  | Sufficient n _ => n
  end.

Definition passes (v : verdict) : bool :=
  match v with
  | TooSmall _ _ _ _ => false
  | Sufficient _ _ => true
  end.

(** A weak [f] and a local [f] of the unit [a.c]. *)
Definition weak_f_graph : CallGraph :=
  {| globals := [];
     locals := [("f"%string, [("a.c"%string, new_node "a.c" "f" "LOCAL")])];
     weak := [("f"%string, new_node "a.c" "f" "WEAK")];
     irqs := [] |}.

(** No record has a result yet: so it is until [read_manual]. *)
Definition no_results (cg : CallGraph) : Prop :=
  ∀ r d, deref cg r = Some d → wcs d = None.

(** [read_rtl] for each unit in turn, as in [main]. *)
Fixpoint read_rtl_units (cg : CallGraph) (units : list (string * list rtl_line))
    : rtl_result :=
  match units with
  | [] => RtlOk {| rtl_graph := cg; last_fxn := None; fxn_dict2 := Unassigned |}
  | (t, lines) :: units' =>
      match read_rtl cg t lines with
      | RtlOk st => read_rtl_units (rtl_graph st) units'
      | other => other
      end
  end.

(** [read_su] for each unit, then [read_manual] for each manual file. *)
Definition read_su_units (cg : CallGraph) (units : list (string * list su_match))
    : CallGraph :=
  foldl (λ cg' u, read_su cg' u.1 u.2) cg units.

Definition read_manual_files (cg : CallGraph) (files : list (list (string * Z)))
    : result CallGraph :=
  foldM read_manual cg files.
(** * Properties *)

(** ** Dicts *)

Section dict_facts.
Context {V : Type}.
Implicit Types (d : dict V) (k : string).

Lemma dict_get_alter h k k' d :
  dict_get k (dict_alter h k' d) =
  if decide (k' = k) then h <$> dict_get k d else dict_get k d.
Proof.
  induction d as [|[k0 v] d IH]; simpl.
  - by destruct (decide _).
  - destruct (decide (k0 = k')) as [->|Hne]; simpl.
    + destruct (decide (k' = k)); done.
    + destruct (decide (k0 = k)) as [->|]; [by rewrite decide_False|done].
Qed.

Lemma dict_keys_alter h k d : dict_keys (dict_alter h k d) = dict_keys d.
Proof.
  unfold dict_keys. induction d as [|[k0 v] d IH]; simpl; [done|].
  destruct (decide _); simpl; by f_equal.
Qed.

Lemma dict_alter_compose h1 h2 k d :
  dict_alter h2 k (dict_alter h1 k d) = dict_alter (h2 ∘ h1) k d.
Proof.
  induction d as [|[k0 v] d IH]; simpl; [done|].
  destruct (decide (k0 = k)) as [->|Hne]; simpl.
  - by rewrite decide_True.
  - rewrite decide_False by done. by f_equal.
Qed.

Lemma dict_alter_ext h h' k d :
  (∀ v, dict_get k d = Some v → h v = h' v) →
  dict_alter h k d = dict_alter h' k d.
Proof.
  induction d as [|[k0 v] d IH]; simpl; [done|]. intros Hh.
  destruct (decide (k0 = k)) as [->|Hne].
  - by rewrite Hh.
  - f_equal. by apply IH.
Qed.

Lemma dict_alter_id h k d :
  (∀ v, dict_get k d = Some v → h v = v) → dict_alter h k d = d.
Proof.
  induction d as [|[k0 v] d IH]; simpl; [done|]. intros Hh.
  destruct (decide (k0 = k)) as [->|Hne].
  - by rewrite Hh.
  - f_equal. by apply IH.
Qed.

Lemma dict_get_set k k' v d :
  dict_get k (dict_set k' v d) =
  if decide (k' = k) then Some v else dict_get k d.
Proof.
  induction d as [|[k0 v0] d IH]; simpl.
  - done.
  - destruct (decide (k0 = k')) as [->|Hne]; simpl.
    + destruct (decide (k' = k)); done.
    + destruct (decide (k0 = k)) as [->|]; [by rewrite decide_False|done].
Qed.

Lemma dict_get_is_Some k d : is_Some (dict_get k d) ↔ k ∈ dict_keys d.
Proof.
  unfold dict_keys. induction d as [|[k0 v] d IH]; simpl.
  - split; [by intros [? ?]|by intros ?%elem_of_nil].
  - rewrite elem_of_cons. destruct (decide (k0 = k)) as [->|Hne].
    + split; eauto.
    + rewrite IH. naive_solver.
Qed.

Lemma dict_mem_true k d : dict_mem k d = true ↔ is_Some (dict_get k d).
Proof. unfold dict_mem. by rewrite bool_decide_eq_true. Qed.

Lemma dict_mem_false k d : dict_mem k d = false ↔ dict_get k d = None.
Proof.
  unfold dict_mem. rewrite bool_decide_eq_false.
  by rewrite eq_None_not_Some.
Qed.
End dict_facts.

(** ** References into the graph *)

Lemma deref_update cg r h r' :
  deref (update cg r h) r' =
  if decide (r = r') then h <$> deref cg r' else deref cg r'.
Proof.
  destruct r as [f|f t], r' as [f'|f' t']; simpl; try done.
  - rewrite dict_get_alter.
    destruct (decide (f = f')) as [->|]; [by rewrite decide_True|].
    rewrite decide_False; [done|congruence].
  - rewrite dict_get_alter.
    destruct (decide (f = f')) as [->|].
    + destruct (dict_get f' (locals cg)) as [l|]; simpl.
      * rewrite dict_get_alter.
        destruct (decide (t = t')) as [->|]; [by rewrite decide_True|].
        rewrite decide_False; [done|congruence].
      * by destruct (decide _).
    + rewrite decide_False; [done|congruence].
Qed.

Lemma deref_update_eq cg r h : deref (update cg r h) r = h <$> deref cg r.
Proof. by rewrite deref_update, decide_True. Qed.

Lemma deref_update_ne cg r h r' :
  r ≠ r' → deref (update cg r h) r' = deref cg r'.
Proof. intros. by rewrite deref_update, decide_False. Qed.

Lemma all_refs_update cg r h : all_refs (update cg r h) = all_refs cg.
Proof.
  unfold all_refs. destruct r as [f|f t]; simpl.
  - by rewrite dict_keys_alter.
  - f_equal. induction (locals cg) as [|[k l] ls IH]; simpl; [done|].
    destruct (decide (k = f)); simpl; [|by rewrite IH].
    by rewrite dict_keys_alter.
Qed.

Lemma update_update cg r h1 h2 :
  update (update cg r h1) r h2 = update cg r (h2 ∘ h1).
Proof.
  destruct r as [f|f t]; unfold update, set_globals, set_locals; simpl.
  - by rewrite dict_alter_compose.
  - rewrite dict_alter_compose. f_equal.
    apply dict_alter_ext. intros l _. simpl. apply dict_alter_compose.
Qed.

Lemma update_ext cg r h h' :
  (∀ d, deref cg r = Some d → h d = h' d) → update cg r h = update cg r h'.
Proof.
  destruct r as [f|f t]; unfold update, set_globals, set_locals; simpl;
    intros Hh; f_equal.
  - by apply dict_alter_ext.
  - apply dict_alter_ext. intros l Hl. apply dict_alter_ext. intros d Hd.
    apply Hh. by rewrite Hl.
Qed.

Lemma update_id cg r h :
  (∀ d, deref cg r = Some d → h d = d) → update cg r h = cg.
Proof.
  destruct cg as [g l w i].
  destruct r as [f|f t]; unfold update, set_globals, set_locals; simpl;
    intros Hh; f_equal.
  - by apply dict_alter_id.
  - apply dict_alter_id. intros l' Hl. apply dict_alter_id. intros d Hd.
    apply Hh. by rewrite Hl.
Qed.

Lemma deref_all_refs cg r : is_Some (deref cg r) → r ∈ all_refs cg.
Proof.
  unfold all_refs. rewrite elem_of_app. destruct r as [f|f t]; simpl.
  - rewrite dict_get_is_Some. intros Hf. left. by apply list_elem_of_fmap_2.
  - intros Hs. right. apply list_elem_of_In, in_flat_map.
    induction (locals cg) as [|[k l] ls IH]; simpl in *.
    { by destruct Hs. }
    destruct (decide (k = f)) as [->|Hne]; simpl in Hs.
    + exists (f, l). split; [by left|]. simpl.
      apply list_elem_of_In, list_elem_of_fmap_2. by apply dict_get_is_Some.
    + destruct (IH Hs) as (e & He1 & He2). exists e. split; [by right|done].
Qed.

Lemma all_refs_deref cg r :
  unique_keys cg → r ∈ all_refs cg → is_Some (deref cg r).
Proof.
  unfold all_refs, unique_keys, dict_keys. rewrite elem_of_app.
  intros Hnd [(k & -> & Hk)%list_elem_of_fmap|Hin]; simpl.
  { by apply dict_get_is_Some. }
  apply list_elem_of_In, in_flat_map in Hin as ([k l] & He1 & He2).
  apply list_elem_of_In, list_elem_of_fmap in He2 as (t & -> & Ht).
  apply dict_get_is_Some in Ht. simpl in *.
  induction (locals cg) as [|[k' l'] ls IH]; simpl in *; [done|].
  apply NoDup_cons in Hnd as [Hk' Hnd].
  destruct He1 as [[= -> ->]|He1].
  - by rewrite decide_True.
  - rewrite decide_False; [by apply IH|].
    intros ->. apply Hk'. apply list_elem_of_fmap. exists (k, l).
    split; [done|by apply list_elem_of_In].
Qed.

(** ** What the steps keep *)

Lemma node_le_refl d : node_le d d.
Proof.
  split; try done.
  - destruct (has_ptr_call d); auto.
  - destruct (local_stack d); auto.
  - destruct (unresolved_calls d); eauto.
Qed.

Lemma node_le_trans d1 d2 d3 : node_le d1 d2 → node_le d2 d3 → node_le d1 d3.
Proof.
  intros [] []. split; try congruence.
  - destruct (has_ptr_call d1) as [b|].
    + by rewrite le_has_ptr_call0 in le_has_ptr_call1.
    + destruct le_has_ptr_call0 as [E|E]; rewrite E in le_has_ptr_call1; auto.
  - destruct (local_stack d1) as [l|].
    + by rewrite le_local_stack0 in le_local_stack1.
    + destruct le_local_stack0 as [E|E]; rewrite E in le_local_stack1; auto.
  - destruct (unresolved_calls d1) as [u|].
    + destruct le_unresolved_calls0 as (u' & E & Hu).
      rewrite E in le_unresolved_calls1.
      destruct le_unresolved_calls1 as (u'' & E' & Hu').
      exists u''. split; [done|set_solver].
    + by rewrite le_unresolved_calls0 in le_unresolved_calls1.
  - intros Hw. assert (d2 = d1) as -> by auto. auto.
Qed.

Global Instance graph_le_preorder : PreOrder graph_le.
Proof.
  split.
  - intros cg. split; [done|]. intros r.
    destruct (deref cg r); constructor. apply node_le_refl.
  - intros cg1 cg2 cg3 [Ha1 Hd1] [Ha2 Hd2]. split; [congruence|].
    intros r. specialize (Hd1 r). specialize (Hd2 r).
    destruct Hd1; inversion Hd2; subst; constructor.
    by eapply node_le_trans.
Qed.

Lemma update_le cg f h :
  (∀ d, deref cg f = Some d → node_le d (h d)) → graph_le cg (update cg f h).
Proof.
  intros Hh. split; [apply all_refs_update|].
  intros r. rewrite deref_update. destruct (decide (f = r)) as [<-|].
  - destruct (deref cg f) as [d|] eqn:E; constructor. by apply Hh.
  - destruct (deref cg r); constructor. apply node_le_refl.
Qed.

Lemma set_wcs_same w d : wcs d = Some w → set_wcs w d = d.
Proof. destruct d; simpl. by intros ->. Qed.

Lemma node_le_set_wcs w d :
  wcs d = None ∨ wcs d = Some w → node_le d (set_wcs w d).
Proof.
  intros [Hw|Hw]; [|rewrite set_wcs_same by done; apply node_le_refl].
  split; simpl; try done.
  - destruct (has_ptr_call d); auto.
  - destruct (local_stack d); auto.
  - destruct (unresolved_calls d); eauto.
  - rewrite Hw. by intros [? ?].
Qed.

Lemma wcs_step_le cg cg' : wcs_step cg cg' → graph_le cg cg'.
Proof.
  destruct 1 as [f d Hd Hw Hp|f d Hd Hw Hp|f d Hd Hw Hp Hc|f d c Hd Hw Hp He Hc
                |f d u c k x Hd Hw Hp Hu He Hc Hx|f d Hd Hw Hl
                |f d cs l Hd Hw Hp Hcs Hl Hall];
    apply update_le; intros d0 Hd0; assert (d0 = d) as -> by congruence.
  - split; simpl; try done.
    + rewrite Hp. auto.
    + destruct (local_stack d); auto.
    + destruct (unresolved_calls d); eauto.
    + rewrite Hw. by intros [? ?].
  - apply node_le_set_wcs. auto.
  - apply node_le_set_wcs. auto.
  - apply node_le_set_wcs. auto.
  - split; simpl; try done.
    + destruct (has_ptr_call d); auto.
    + destruct (local_stack d); auto.
    + rewrite Hu. eexists. split; [done|set_solver].
    + rewrite Hw. by intros [? ?].
  - split; simpl; try done.
    + destruct (has_ptr_call d); auto.
    + rewrite Hl. auto.
    + destruct (unresolved_calls d); eauto.
    + rewrite Hw. by intros [? ?].
  - apply node_le_set_wcs. auto.
Qed.

Lemma wcs_steps_le cg cg' : rtc wcs_step cg cg' → graph_le cg cg'.
Proof.
  induction 1 as [|cg1 cg2 cg3 Hs _ IH]; [done|].
  etrans; [by apply wcs_step_le|done].
Qed.

Section graph_le_facts.
Context (cg cg' : CallGraph) (Hle : graph_le cg cg').

Lemma le_deref_Some r d :
  deref cg r = Some d → ∃ d', deref cg' r = Some d' ∧ node_le d d'.
Proof.
  intros Hd. pose proof (le_deref _ _ Hle r) as H. rewrite Hd in H.
  inversion H; subst. eauto.
Qed.

Lemma le_deref_Some_inv r d' :
  deref cg' r = Some d' → ∃ d, deref cg r = Some d ∧ node_le d d'.
Proof.
  intros Hd. pose proof (le_deref _ _ Hle r) as H. rewrite Hd in H.
  inversion H; subst. eauto.
Qed.

Lemma le_deref_None r : deref cg r = None ↔ deref cg' r = None.
Proof.
  pose proof (le_deref _ _ Hle r) as H.
  split; intros E; rewrite E in H; by inversion H.
Qed.

Lemma le_deref_is_Some r : is_Some (deref cg r) ↔ is_Some (deref cg' r).
Proof. rewrite <-!not_eq_None_Some. by rewrite le_deref_None. Qed.

Lemma le_finalized r d :
  deref cg r = Some d → is_Some (wcs d) → deref cg' r = Some d.
Proof.
  intros Hd Hw. destruct (le_deref_Some r d Hd) as (d' & Hd' & Hdd).
  by rewrite (le_wcs _ _ Hdd Hw) in Hd'.
Qed.

Lemma le_wcs_of r w : wcs_of cg r = Some w → wcs_of cg' r = Some w.
Proof.
  unfold wcs_of. destruct (deref cg r) as [d|] eqn:Hd; simpl; [|done].
  intros Hw. by rewrite (le_finalized r d Hd) by (by rewrite Hw).
Qed.

Lemma le_unresolved_of_finalized r :
  is_Some (wcs_of cg r) → unresolved_of cg' r = unresolved_of cg r.
Proof.
  unfold wcs_of, unresolved_of.
  destruct (deref cg r) as [d|] eqn:Hd; simpl; [|by intros [? ?]].
  intros Hw. by rewrite (le_finalized r d Hd).
Qed.

Lemma le_unresolved_of r : unresolved_of cg r ⊆ unresolved_of cg' r.
Proof.
  unfold unresolved_of. destruct (deref cg r) as [d|] eqn:Hd; simpl.
  - destruct (le_deref_Some r d Hd) as (d' & -> & Hdd). simpl.
    pose proof (le_unresolved_calls _ _ Hdd) as H.
    destruct (unresolved_calls d) as [u|]; simpl.
    + by destruct H as (u' & -> & ?).
    + set_solver.
  - set_solver.
Qed.

Lemma le_edge f c : edge cg f c ↔ edge cg' f c.
Proof.
  split.
  - intros (d & cs & Hd & Hcs & Hc).
    destruct (le_deref_Some f d Hd) as (d' & Hd' & Hdd).
    exists d', cs. by rewrite (le_r_calls _ _ Hdd).
  - intros (d' & cs & Hd' & Hcs & Hc).
    destruct (le_deref_Some_inv f d' Hd') as (d & Hd & Hdd).
    exists d, cs. by rewrite <-(le_r_calls _ _ Hdd).
Qed.

Lemma le_tc_edge f c : tc (edge cg) f c ↔ tc (edge cg') f c.
Proof.
  split; induction 1 as [x y H|x y z H _ IH].
  - apply tc_once. by apply le_edge.
  - eapply tc_l; [|done]. by apply le_edge.
  - apply tc_once. by apply le_edge.
  - eapply tc_l; [|done]. by apply le_edge.
Qed.

Lemma le_chain ps f : chain cg ps f ↔ chain cg' ps f.
Proof. unfold chain. by setoid_rewrite le_tc_edge. Qed.

Lemma le_resolved : resolved cg → resolved cg'.
Proof.
  intros Hr r d' Hd'.
  destruct (le_deref_Some_inv r d' Hd') as (d & Hd & Hdd).
  destruct (Hr r d Hd) as [(cs & Hcs & Hv) [u Hu]]. split.
  - exists cs. rewrite (le_r_calls _ _ Hdd). split; [done|].
    intros c Hc. apply le_deref_is_Some. auto.
  - pose proof (le_unresolved_calls _ _ Hdd) as H. rewrite Hu in H.
    destruct H as (u' & -> & _). eauto.
Qed.

Lemma le_bounded_value r :
  is_Some (wcs_of cg r) → bounded_value cg' r = bounded_value cg r.
Proof.
  intros [w Hw]. unfold bounded_value. by rewrite (le_wcs_of r w Hw), Hw.
Qed.

Lemma le_callee_done f c : callee_done cg f c → callee_done cg' f c.
Proof.
  intros [[k Hk] Hu]. split.
  - exists k. by apply le_wcs_of.
  - rewrite le_unresolved_of_finalized by (by rewrite Hk).
    etrans; [done|]. apply le_unresolved_of.
Qed.
End graph_le_facts.

(** ** [calc_wcs] takes steps *)

Lemma bind_Ok {A B} (m : result A) (k : A → result B) b :
  m ≫= k = Ok b → ∃ a, m = Ok a ∧ k a = Ok b.
Proof. destruct m as [a|e]; [by exists a|done]. Qed.

Lemma get_Ok cg r d : get cg r = Ok d ↔ deref cg r = Some d.
Proof. unfold get. destruct (deref cg r); naive_solver. Qed.

Lemma key_Ok {A} k (o : option A) a : key k o = Ok a ↔ o = Some a.
Proof. destruct o; naive_solver. Qed.

Ltac bind_inv H :=
  let a := fresh "a" in
  let E := fresh "E" in
  apply bind_Ok in H as (a & E & H);
  first [apply get_Ok in E | apply key_Ok in E | idtac].

(** Case analysis on the first test in the goal. *)
Ltac goal_decide H :=
  match goal with
  | |- context [@bool_decide ?P ?dec] =>
      destruct_decide (@bool_decide_reflect P dec) as H
  end.

Lemma wcs_of_update cg f h r :
  wcs_of (update cg f h) r =
  if decide (f = r) then d ← deref cg r; wcs (h d) else wcs_of cg r.
Proof.
  unfold wcs_of. rewrite deref_update. destruct (decide _); [|done].
  by destruct (deref cg r).
Qed.

Lemma wcs_of_Some cg r w :
  wcs_of cg r = Some w ↔ ∃ d, deref cg r = Some d ∧ wcs d = Some w.
Proof. unfold wcs_of. destruct (deref cg r); naive_solver. Qed.

Lemma in_progress_wcs_of cg f : in_progress cg f → wcs_of cg f = None.
Proof. intros (d & Hd & Hw & _). unfold wcs_of. by rewrite Hd. Qed.

Lemma in_progress_le cg cg' f :
  graph_le cg cg' → in_progress cg f → wcs_of cg' f = None →
  in_progress cg' f.
Proof.
  intros Hle (d & Hd & Hw & Hp) Hw'.
  destruct (le_deref_Some _ _ Hle f d Hd) as (d' & Hd' & Hdd).
  exists d'. split; [done|]. split.
  - unfold wcs_of in Hw'. by rewrite Hd' in Hw'.
  - pose proof (le_has_ptr_call _ _ Hdd) as H. by rewrite Hp in H.
Qed.

Lemma call_max_from_le cg cg' m cs :
  graph_le cg cg' → Forall (λ c, is_Some (wcs_of cg c)) cs →
  call_max_from cg' m cs = call_max_from cg m cs.
Proof.
  intros Hle Hall. revert m. unfold call_max_from.
  induction Hall as [|c cs Hc _ IH]; intros m; simpl; [done|].
  by rewrite IH, (le_bounded_value _ _ Hle).
Qed.

Lemma propagate_steps f c k us : ∀ cg cg',
  propagate f cg us = Ok cg' →
  in_progress cg f → edge cg f c → wcs_of cg c = Some (Bounded k) →
  (∀ u, u ∈ us → u ∈ unresolved_of cg c) →
  rtc wcs_step cg cg' ∧ in_progress cg' f ∧
  (∀ r, wcs_of cg' r = wcs_of cg r) ∧
  (∀ u, u ∈ us → u ∈ unresolved_of cg' f).
Proof.
  induction us as [|x us IH]; intros cg cg' Hrun Hf He Hc Hus; simpl in Hrun.
  { injection Hrun as <-.
    split_and!; [apply rtc_refl|done|done|by intros ? ?%elem_of_nil]. }
  bind_inv Hrun. bind_inv E. bind_inv E. injection E as <-.
  rename a0 into d, a1 into u.
  destruct Hf as (d0 & Hd0 & Hw & Hp). assert (d0 = d) as -> by congruence.
  set (cg1 := update cg f (set_unresolved_calls ({[x]} ∪ u))) in *.
  assert (wcs_step cg cg1) as Hstep.
  { eapply step_unresolved; eauto. apply Hus. by left. }
  pose proof (wcs_step_le _ _ Hstep) as Hle.
  assert (∀ r, wcs_of cg1 r = wcs_of cg r) as Hsame.
  { intros r. unfold cg1. rewrite wcs_of_update.
    destruct (decide (f = r)) as [<-|]; [|done].
    unfold wcs_of. by rewrite E0. }
  assert (in_progress cg1 f) as Hf1.
  { eapply in_progress_le; [done|by exists d|].
    rewrite Hsame. unfold wcs_of. by rewrite E0. }
  destruct (IH cg1 cg' Hrun Hf1) as (Hsteps & Hf' & Hsame' & Hin).
  - by apply (le_edge _ _ Hle).
  - by rewrite Hsame.
  - intros y Hy. rewrite (le_unresolved_of_finalized _ _ Hle) by (by rewrite Hc).
    apply Hus. by right.
  - split_and!.
    + by eapply rtc_l.
    + done.
    + intros r. by rewrite Hsame', Hsame.
    + intros y [->|Hy]%elem_of_cons; [|by apply Hin].
      apply (le_unresolved_of _ _ (wcs_steps_le _ _ Hsteps)).
      unfold unresolved_of, cg1. rewrite deref_update_eq, E0. simpl.
      set_solver.
Qed.

Lemma calls_loop_steps rec f ps :
  sound_call rec (ps ++ [f]) →
  ∀ cs cg call_max ex,
    calls_loop rec f cs cg call_max = Ok ex →
    in_progress cg f → (∀ c, c ∈ cs → edge cg f c) → chain cg ps f →
    loop_post cg f ps cs call_max ex.
Proof.
  intros Hrec. induction cs as [|c cs IH]; intros cg cm ex Hrun Hf Hedges Hch;
    simpl in Hrun.
  { injection Hrun as <-. simpl. split_and!; auto using rtc_refl. }
  bind_inv Hrun. rename a into cg1, E into Hcall.
  bind_inv Hrun. rename a into dc, E into Hdc.
  bind_inv Hrun. rename a into w, E into Hw.
  assert (edge cg f c) as Hfc by (apply Hedges; by left).
  assert (chain cg (ps ++ [f]) c) as Hch'.
  { intros p [Hp| ->%list_elem_of_singleton]%elem_of_app.
    - eapply tc_r; [by apply Hch|done].
    - by apply tc_once. }
  destruct (Hrec cg c cg1 Hcall Hch') as (Hsteps1 & _ & Hanc).
  pose proof (wcs_steps_le _ _ Hsteps1) as Hle1.
  assert (wcs_of cg1 c = Some w) as Hwc.
  { unfold wcs_of. by rewrite Hdc. }
  pose proof (in_progress_wcs_of _ _ Hf) as Hwf.
  destruct w as [k|].
  - (* the callee is bounded: no ancestor got its result during the call *)
    assert (∀ p, p ∈ ps ++ [f] → wcs_of cg p = None → wcs_of cg1 p = None)
      as Hanc'.
    { intros p Hp Hn. destruct (Hanc p Hp Hn) as [|[_ ?]]; [done|congruence]. }
    assert (in_progress cg1 f) as Hf1.
    { eapply in_progress_le; [done..|]. apply Hanc'; [|done].
      apply elem_of_app. right. by left. }
    bind_inv Hrun. rename a into us, E into Hus.
    bind_inv Hrun. rename a into cg2, E into Hprop.
    assert (unresolved_of cg1 c = us) as Hus'.
    { unfold unresolved_of. rewrite Hdc. simpl. by rewrite Hus. }
    destruct (propagate_steps f c k (elements us) cg1 cg2 Hprop Hf1)
      as (Hsteps2 & Hf2 & Hsame & Hin).
    { by apply (le_edge _ _ Hle1). }
    { done. }
    { intros u Hu. rewrite Hus'. by apply elem_of_elements. }
    pose proof (wcs_steps_le _ _ Hsteps2) as Hle2.
    assert (graph_le cg cg2) as Hle by (by etrans).
    specialize (IH cg2 (Z.max cm k) ex Hrun Hf2).
    destruct ex as [cg'|cg' cm']; simpl in *.
    + destruct IH as (Hsteps3 & Hunb & Hps).
      { intros c' Hc'. apply (le_edge _ _ Hle). apply Hedges. by right. }
      { by apply (le_chain _ _ Hle). }
      split_and!; [by do 2 (etrans; [done|])|done|].
      intros p Hp Hn. apply Hps; [done|]. rewrite Hsame. apply Hanc'; [|done].
      apply elem_of_app. by left.
    + destruct IH as (Hsteps3 & Hf3 & Hps & Hdone & ->).
      { intros c' Hc'. apply (le_edge _ _ Hle). apply Hedges. by right. }
      { by apply (le_chain _ _ Hle). }
      pose proof (wcs_steps_le _ _ Hsteps3) as Hle3.
      split_and!; [by do 2 (etrans; [done|])|done| | |].
      * intros p Hp Hn. apply Hps; [done|]. rewrite Hsame. apply Hanc'; [|done].
        apply elem_of_app. by left.
      * constructor; [|done]. apply (le_callee_done _ _ Hle3). split.
        -- exists k. by rewrite Hsame.
        -- rewrite (le_unresolved_of_finalized _ _ Hle2) by (by rewrite Hwc).
           rewrite Hus'. intros u Hu. apply Hin. by apply elem_of_elements.
      * unfold call_max_from. simpl. f_equal. f_equal. unfold bounded_value.
        assert (wcs_of cg2 c = Some (Bounded k)) as H2 by (by rewrite Hsame).
        by rewrite (le_wcs_of _ _ Hle3 _ _ H2).
  - (* the callee is unbounded: so is [f] *)
    injection Hrun as <-. simpl.
    destruct Hf as (d & Hd & Hnw & Hp).
    destruct (le_deref_Some _ _ Hle1 f d Hd) as (d1 & Hd1 & Hdd).
    assert (wcs d1 = None ∨ wcs d1 = Some Unbounded) as Hw1.
    { destruct (Hanc f) as [H|[H _]]; [apply elem_of_app; right; by left|done|..];
        unfold wcs_of in H; rewrite Hd1 in H; auto. }
    assert (has_ptr_call d1 = Some false) as Hp1.
    { pose proof (le_has_ptr_call _ _ Hdd) as H. by rewrite Hp in H. }
    split_and!.
    + eapply rtc_r; [done|]. eapply step_unbounded_callee; eauto.
      by apply (le_edge _ _ Hle1).
    + rewrite wcs_of_update, decide_True by done. by rewrite Hd1.
    + intros p Hpin Hn. rewrite wcs_of_update.
      destruct (decide (f = p)) as [<-|]; [rewrite Hd1; auto|].
      destruct (Hanc p) as [|[? _]]; auto. apply elem_of_app. by left.
Qed.

Lemma update_set_wcs_twice cg f w w' :
  update (update cg f (set_wcs w)) f (set_wcs w') = update cg f (set_wcs w').
Proof. rewrite update_update. by apply update_ext. Qed.

(** Soundness of the steps: a call of [calc_wcs] that returns has taken
    steps of [wcs_step], and has stored a result for its argument. *)
Lemma calc_wcs_steps fuel : ∀ cg f ps cg',
  calc_wcs fuel cg f ps = Ok cg' → chain cg ps f → calc_post cg f ps cg'.
Proof.
  induction fuel as [|fuel IH]; intros cg f ps cg' Hrun Hch; [done|].
  simpl in Hrun. bind_inv Hrun. rename a into d, E into Hd.
  revert Hrun. goal_decide Hw; intros Hrun.
  { (* memoized *)
    injection Hrun as <-. destruct Hw as [w Hw].
    split_and!; [apply rtc_refl| |auto].
    exists w. unfold wcs_of. by rewrite Hd. }
  apply eq_None_not_Some in Hw.
  set (cg1 := if bool_decide (is_Some (has_ptr_call d)) then cg
              else update cg f (set_has_ptr_call false)) in *.
  assert (rtc wcs_step cg cg1) as Hsteps1.
  { unfold cg1. goal_decide Hp; [apply rtc_refl|].
    apply rtc_once. eapply step_default_ptr; eauto.
    by apply eq_None_not_Some. }
  pose proof (wcs_steps_le _ _ Hsteps1) as Hle1.
  destruct (le_deref_Some _ _ Hle1 f d Hd) as (d1 & Hd1 & Hdd).
  assert (∀ r, wcs_of cg1 r = wcs_of cg r) as Hsame1.
  { intros r. unfold cg1. goal_decide Hp; [done|].
    rewrite wcs_of_update. destruct (decide (f = r)) as [<-|]; [|done].
    unfold wcs_of. by rewrite Hd. }
  assert (wcs d1 = None) as Hw1.
  { specialize (Hsame1 f). unfold wcs_of in Hsame1.
    rewrite Hd1, Hd in Hsame1. simpl in Hsame1. congruence. }
  assert (∀ p, p ∈ ps → wcs_of cg p = None →
            wcs_of (update cg1 f (set_wcs Unbounded)) p = None ∨
            wcs_of (update cg1 f (set_wcs Unbounded)) p = Some Unbounded ∧
            wcs_of (update cg1 f (set_wcs Unbounded)) f = Some Unbounded)
    as Hanc_unb.
  { intros p Hp Hn. rewrite !wcs_of_update.
    destruct (decide (f = p)) as [<-|].
    - rewrite decide_True, Hd1 by done. auto.
    - left. by rewrite Hsame1. }
  assert (is_Some (wcs_of (update cg1 f (set_wcs Unbounded)) f)) as Hset_unb.
  { rewrite wcs_of_update, decide_True by done. rewrite Hd1. by eexists. }
  revert Hrun. goal_decide Hp; intros Hrun.
  { (* a call through a pointer *)
    injection Hrun as <-. split_and!; [|done..].
    eapply rtc_r; [done|]. eapply step_ptr_call; eauto.
    pose proof (le_has_ptr_call _ _ Hdd) as H. by rewrite Hp in H. }
  assert (has_ptr_call d1 = Some false) as Hp1.
  { pose proof (le_has_ptr_call _ _ Hdd) as H. unfold cg1 in Hd1.
    destruct (has_ptr_call d) as [[]|] eqn:Hpd; [done|done|].
    rewrite bool_decide_eq_false_2 in Hd1 by (by intros [? ?]).
    rewrite deref_update_eq, Hd in Hd1. by injection Hd1 as <-. }
  assert (in_progress cg1 f) as Hf1 by (by exists d1).
  revert Hrun. goal_decide Hin; intros Hrun.
  { (* recursion *)
    injection Hrun as <-. split_and!; [|done..].
    eapply rtc_r; [done|]. eapply step_recursion; eauto.
    apply (le_tc_edge _ _ Hle1). by apply Hch. }
  bind_inv Hrun. rename a into cs, E into Hcs.
  bind_inv Hrun. rename a into ex, E into Hloop.
  assert (r_calls d1 = Some cs) as Hcs1.
  { by rewrite (le_r_calls _ _ Hdd). }
  apply (calls_loop_steps _ f ps) in Hloop; [|by intros ???; apply IH|done|..].
  2:{ intros c Hc. by exists d1, cs. }
  2:{ by apply (le_chain _ _ Hle1). }
  destruct ex as [cg2|cg2 cm]; simpl in Hloop.
  { injection Hrun as <-. destruct Hloop as (Hsteps2 & Hunb & Hps).
    split_and!; [by etrans|by rewrite Hunb|].
    intros p Hpin Hn. destruct (Hps p Hpin) as [|]; auto.
    by rewrite Hsame1. }
  destruct Hloop as (Hsteps2 & Hf2 & Hps & Hdone & ->).
  bind_inv Hrun. rename a into d2, E into Hd2.
  pose proof (wcs_steps_le _ _ Hsteps2) as Hle2.
  destruct Hf2 as (d2' & Hd2' & Hw2 & Hp2). assert (d2' = d2) as -> by congruence.
  set (cg3 := if bool_decide (is_Some (local_stack d2)) then cg2
              else update cg2 f (set_local_stack 0)) in *.
  set (l := default 0 (local_stack d2)) in *.
  assert (rtc wcs_step cg2 cg3) as Hsteps3.
  { unfold cg3. goal_decide Hl; [apply rtc_refl|].
    apply rtc_once. eapply step_default_local; eauto.
    by apply eq_None_not_Some. }
  pose proof (wcs_steps_le _ _ Hsteps3) as Hle3.
  destruct (le_deref_Some _ _ Hle3 f d2 Hd2) as (d3 & Hd3 & Hdd3).
  assert (wcs d3 = None ∧ local_stack d3 = Some l) as [Hw3 Hl3].
  { clear Hrun. revert Hd3. unfold cg3, l. goal_decide Hl; intros Hd3.
    - assert (d3 = d2) as -> by congruence. destruct Hl as [l' Hl].
      by rewrite Hl.
    - rewrite deref_update_eq, Hd2 in Hd3. injection Hd3 as <-.
      apply eq_None_not_Some in Hl. by rewrite Hl. }
  set (v := call_max_from cg2 0 cs + l) in *.
  assert (cg' = update cg3 f (set_wcs (Bounded (with_clob_sp v (clob_sp d2)))))
    as ->.
  { destruct (clob_sp d2) as [k|]; simpl in *; injection Hrun as <-; [|done].
    apply update_set_wcs_twice. }
  assert (wcs_step cg3
            (update cg3 f (set_wcs (Bounded (with_clob_sp v (clob_sp d2))))))
    as Hstep.
  { assert (Forall (λ c, is_Some (wcs_of cg2 c)) cs) as Hfin.
    { eapply Forall_impl; [exact Hdone|]. intros c [[k ->] _]. by eexists. }
    unfold v. rewrite <-(call_max_from_le cg2 cg3 0 cs Hle3 Hfin).
    rewrite <-(le_clob_sp _ _ Hdd3).
    eapply step_bounded; eauto.
    - pose proof (le_has_ptr_call _ _ Hdd3) as H. by rewrite Hp2 in H.
    - rewrite (le_r_calls _ _ Hdd3).
      destruct (le_deref_Some _ _ Hle2 f d1 Hd1) as (d2'' & Hd2'' & Hdd2).
      assert (d2'' = d2) as -> by congruence. by rewrite (le_r_calls _ _ Hdd2).
    - eapply Forall_impl; [exact Hdone|]. intros c. by apply le_callee_done. }
  split_and!.
  - etrans; [done|]. etrans; [done|]. etrans; [done|]. by apply rtc_once.
  - rewrite wcs_of_update, decide_True by done. rewrite Hd3. by eexists.
  - intros p Hpin Hn. left. rewrite wcs_of_update.
    rewrite decide_False by (by intros <-).
    assert (wcs_of cg2 p = None) as Hn2 by (apply Hps; [done|by rewrite Hsame1]).
    unfold cg3. goal_decide Hl; [done|]. rewrite wcs_of_update.
    rewrite decide_False by (by intros <-). done.
Qed.

(** ** [calc_wcs] returns *)

Lemma propagate_total f us : ∀ cg,
  resolved cg → in_progress cg f → ∃ cg', propagate f cg us = Ok cg'.
Proof.
  induction us as [|x us IH]; intros cg Hres Hf; [by eexists|].
  destruct Hf as (d & Hd & Hw & Hp).
  destruct (Hres f d Hd) as [_ [u Hu]].
  unfold propagate. simpl. unfold get. rewrite Hd. simpl. rewrite Hu. simpl.
  fold (propagate f).
  assert (graph_le cg (update cg f (set_unresolved_calls ({[x]} ∪ u)))) as Hle.
  { apply update_le. intros d0 Hd0. assert (d0 = d) as -> by congruence.
    split; simpl; try done.
    - destruct (has_ptr_call d); auto.
    - destruct (local_stack d); auto.
    - rewrite Hu. eexists. split; [done|set_solver].
    - rewrite Hw. by intros [? ?]. }
  apply IH.
  - by apply (le_resolved _ _ Hle).
  - eapply in_progress_le; [done|by exists d|].
    rewrite wcs_of_update, decide_True by done. by rewrite Hd.
Qed.

Lemma calls_loop_total rec f ps n :
  sound_call rec (ps ++ [f]) → total_call rec (ps ++ [f]) n →
  ∀ cs cg call_max,
    resolved cg → length (all_refs cg) = n →
    in_progress cg f → (∀ c, c ∈ cs → edge cg f c) → chain cg ps f →
    ∃ ex, calls_loop rec f cs cg call_max = Ok ex.
Proof.
  intros Hsound Htotal.
  induction cs as [|c cs IH]; intros cg cm Hres Hn Hf Hedges Hch; simpl;
    [by eexists|].
  assert (edge cg f c) as Hfc by (apply Hedges; by left).
  assert (chain cg (ps ++ [f]) c) as Hch'.
  { intros p [Hp| ->%list_elem_of_singleton]%elem_of_app.
    - eapply tc_r; [by apply Hch|done].
    - by apply tc_once. }
  assert (is_Some (deref cg c)) as Hc.
  { destruct Hfc as (d & cs' & Hd & Hcs' & Hin).
    destruct (Hres f d Hd) as [(cs'' & Hcs'' & Hv) _]. apply Hv. congruence. }
  destruct (Htotal cg c Hres Hn Hch' Hc) as [cg1 Hcall]. rewrite Hcall. simpl.
  destruct (Hsound cg c cg1 Hcall Hch') as (Hsteps1 & [w Hw] & Hanc).
  pose proof (wcs_steps_le _ _ Hsteps1) as Hle1.
  pose proof (le_resolved _ _ Hle1 Hres) as Hres1.
  apply wcs_of_Some in Hw as (dc & Hdc & Hw).
  unfold get. rewrite Hdc. simpl. rewrite Hw. simpl.
  destruct w as [k|]; [|by eexists].
  destruct (Hres1 c dc Hdc) as [_ [us Hus]]. rewrite Hus. simpl.
  assert (in_progress cg1 f) as Hf1.
  { eapply in_progress_le; [done..|].
    destruct (Hanc f) as [|[_ Hunb]]; [apply elem_of_app; right; by left
                                      |by apply in_progress_wcs_of|done|].
    unfold wcs_of in Hunb. rewrite Hdc in Hunb. simpl in Hunb. congruence. }
  destruct (propagate_total f (elements us) cg1 Hres1 Hf1) as [cg2 Hprop].
  rewrite Hprop. simpl.
  destruct (propagate_steps f c k (elements us) cg1 cg2 Hprop Hf1)
    as (Hsteps2 & Hf2 & _ & _).
  { by apply (le_edge _ _ Hle1). }
  { unfold wcs_of. by rewrite Hdc. }
  { intros u Hu. unfold unresolved_of. rewrite Hdc. simpl. rewrite Hus.
    by apply elem_of_elements. }
  pose proof (wcs_steps_le _ _ Hsteps2) as Hle2.
  assert (graph_le cg cg2) as Hle by (by etrans).
  apply IH.
  - by apply (le_resolved _ _ Hle).
  - by rewrite (le_all_refs _ _ Hle).
  - done.
  - intros c' Hc'. apply (le_edge _ _ Hle). apply Hedges. by right.
  - by apply (le_chain _ _ Hle).
Qed.


Lemma chain_valid cg ps f p : chain cg ps f → p ∈ ps → p ∈ all_refs cg.
Proof.
  intros Hch Hp. apply deref_all_refs.
  assert (∃ y, edge cg p y) as [y (d & ? & Hd & _)].
  { destruct (Hch p Hp); eauto. }
  by rewrite Hd.
Qed.

(** A chain of ancestors without repetition is no longer than the graph
    has records, so fuel beyond the number of records is never used up. *)
Lemma calc_wcs_total fuel : ∀ cg f ps,
  resolved cg → is_Some (deref cg f) → NoDup ps → chain cg ps f →
  (length (all_refs cg) < fuel + length ps)%nat →
  ∃ cg', calc_wcs fuel cg f ps = Ok cg'.
Proof.
  induction fuel as [|fuel IH]; intros cg f ps Hres [d Hd] Hnd Hch Hlen.
  { exfalso. assert (ps ⊆+ all_refs cg) as Hsub%submseteq_length; [|lia].
    apply NoDup_submseteq; [done|]. intros p. by apply (chain_valid cg ps f). }
  simpl. rewrite (proj2 (get_Ok cg f d) Hd). simpl.
  goal_decide Hw; [by eexists|]. apply eq_None_not_Some in Hw.
  goal_decide Hp; [by eexists|].
  goal_decide Hin; [by eexists|].
  destruct (Hres f d Hd) as [(cs & Hcs & Hv) _]. rewrite Hcs. simpl.
  set (cg1 := if bool_decide (is_Some (has_ptr_call d)) then cg
              else update cg f (set_has_ptr_call false)).
  assert (graph_le cg cg1 ∧ in_progress cg1 f) as [Hle1 Hf1].
  { unfold cg1. goal_decide Hsome.
    - split; [done|]. exists d. split_and!; [done..|].
      destruct Hsome as [[] Hb]; congruence.
    - apply eq_None_not_Some in Hsome.
      assert (wcs_step cg (update cg f (set_has_ptr_call false))) as Hstep
        by (by eapply step_default_ptr).
      split; [by apply wcs_step_le|].
      exists (set_has_ptr_call false d). rewrite deref_update_eq, Hd. done. }
  assert (sound_call (λ cg' c, calc_wcs fuel cg' c (ps ++ [f])) (ps ++ [f]))
    as Hsound by (intros ???; apply calc_wcs_steps).
  assert (total_call (λ cg' c, calc_wcs fuel cg' c (ps ++ [f])) (ps ++ [f])
            (length (all_refs cg))) as Htotal.
  { intros cg' c Hres' Hlen' Hch' Hc. apply IH; try done.
    - apply NoDup_app. split_and!; [done| |apply NoDup_singleton].
      intros p Hp' ->%list_elem_of_singleton. done.
    - rewrite length_app. simpl. lia. }
  destruct (calls_loop_total _ f ps _ Hsound Htotal cs cg1 0) as [ex Hloop].
  - by apply (le_resolved _ _ Hle1).
  - by rewrite (le_all_refs _ _ Hle1).
  - done.
  - intros c Hc. apply (le_edge _ _ Hle1). by exists d, cs.
  - by apply (le_chain _ _ Hle1).
  - fold cg1. rewrite Hloop. simpl.
    apply (calls_loop_steps _ f ps) in Hloop; [|done|done|..].
    2:{ intros c Hc. apply (le_edge _ _ Hle1). by exists d, cs. }
    2:{ by apply (le_chain _ _ Hle1). }
    destruct ex as [cg2|cg2 cm]; simpl in *; [by eexists|].
    destruct Hloop as (_ & (d2 & Hd2 & _) & _).
    rewrite (proj2 (get_Ok _ _ _) Hd2). simpl. destruct (clob_sp d2); by eexists.
Qed.

Lemma foldM_app {A B} (f : A → B → result A) a l1 l2 :
  foldM f a (l1 ++ l2) = foldM f a l1 ≫= λ a', foldM f a' l2.
Proof.
  revert a. induction l1 as [|b l1 IH]; intros a; simpl; [done|].
  destruct (f a b); simpl; [apply IH|done].
Qed.

Lemma calc_all_wcs_from_steps fuel : ∀ rs cg cg',
  foldM (λ cg' r, calc_wcs fuel cg' r []) cg rs = Ok cg' →
  rtc wcs_step cg cg' ∧ ∀ r, r ∈ rs → is_Some (wcs_of cg' r).
Proof.
  induction rs as [|r rs IH]; intros cg cg' Hrun; simpl in Hrun.
  { injection Hrun as <-. split; [apply rtc_refl|by intros ? ?%elem_of_nil]. }
  bind_inv Hrun. rename a into cg1.
  apply calc_wcs_steps in E as (Hsteps1 & [w Hw] & _);
    [|by intros ? ?%elem_of_nil].
  destruct (IH _ _ Hrun) as [Hsteps2 Hall]. split; [by etrans|].
  intros r' [->|Hr']%elem_of_cons; [|by apply Hall].
  exists w. by apply (le_wcs_of _ _ (wcs_steps_le _ _ Hsteps2)).
Qed.

Lemma calc_all_wcs_from_total fuel : ∀ rs cg,
  resolved cg → (∀ r, r ∈ rs → is_Some (deref cg r)) →
  (length (all_refs cg) < fuel)%nat →
  ∃ cg', foldM (λ cg' r, calc_wcs fuel cg' r []) cg rs = Ok cg'.
Proof.
  induction rs as [|r rs IH]; intros cg Hres Hv Hlen; simpl; [by eexists|].
  destruct (calc_wcs_total fuel cg r []) as [cg1 Hcall]; try done.
  - apply Hv. by left.
  - constructor.
  - by intros ? ?%elem_of_nil.
  - simpl. lia.
  - rewrite Hcall. simpl.
    apply calc_wcs_steps in Hcall as (Hsteps & _); [|by intros ? ?%elem_of_nil].
    pose proof (wcs_steps_le _ _ Hsteps) as Hle.
    apply IH.
    + by apply (le_resolved _ _ Hle).
    + intros r' Hr'. apply (le_deref_is_Some _ _ Hle). apply Hv. by right.
    + by rewrite (le_all_refs _ _ Hle).
Qed.

(** [calc_all_wcs] returns on every resolved graph, its writes are steps,
    and it leaves a result in every record. *)
Lemma calc_all_wcs_total cg :
  resolved cg → unique_keys cg → ∃ cg', calc_all_wcs cg = Ok cg'.
Proof.
  intros Hres Huk. apply calc_all_wcs_from_total; [done| |lia].
  intros r. by apply all_refs_deref.
Qed.

Lemma calc_all_wcs_steps cg cg' :
  calc_all_wcs cg = Ok cg' →
  rtc wcs_step cg cg' ∧
  ∀ r d, deref cg' r = Some d → is_Some (wcs d).
Proof.
  intros Hrun. apply calc_all_wcs_from_steps in Hrun as [Hsteps Hall].
  split; [done|]. intros r d Hd.
  pose proof (wcs_steps_le _ _ Hsteps) as Hle.
  assert (r ∈ all_refs cg) as Hr.
  { apply deref_all_refs. apply (le_deref_is_Some _ _ Hle). by rewrite Hd. }
  destruct (Hall r Hr) as [w Hw]. unfold wcs_of in Hw. rewrite Hd in Hw.
  by exists w.
Qed.

(** ** Resolution *)

Lemma find_fxn_deref cg t fxn :
  find_fxn cg t fxn =
  if bool_decide (is_Some (deref cg (InGlobals fxn))) then Some (InGlobals fxn)
  else if bool_decide (is_Some (deref cg (InLocals fxn t)))
       then Some (InLocals fxn t) else None.
Proof.
  unfold find_fxn, dict_mem. simpl. goal_decide Hg; [done|].
  destruct (dict_get fxn (locals cg) ≫= dict_get t) eqn:E.
  - by rewrite bool_decide_eq_true_2.
  - by rewrite bool_decide_eq_false_2 by (by intros [? ?]).
Qed.

Lemma find_fxn_ext cg cg' :
  (∀ r, is_Some (deref cg r) ↔ is_Some (deref cg' r)) →
  ∀ t fxn, find_fxn cg' t fxn = find_fxn cg t fxn.
Proof.
  intros H t fxn. rewrite !find_fxn_deref.
  by rewrite (bool_decide_ext _ _ (H (InGlobals fxn))),
             (bool_decide_ext _ _ (H (InLocals fxn t))).
Qed.

Lemma find_fxn_update cg r h t fxn :
  find_fxn (update cg r h) t fxn = find_fxn cg t fxn.
Proof.
  apply find_fxn_ext. intros r'. rewrite deref_update.
  destruct (decide _); [|done]. by rewrite fmap_is_Some.
Qed.

Lemma find_fxn_valid cg t fxn r :
  find_fxn cg t fxn = Some r → is_Some (deref cg r).
Proof.
  rewrite find_fxn_deref. goal_decide Hg; [by intros [= <-]|].
  goal_decide Hl; [by intros [= <-]|done].
Qed.

Lemma resolved_calls_of_ext cg cg' t cs :
  (∀ t fxn, find_fxn cg' t fxn = find_fxn cg t fxn) →
  resolved_calls_of cg' t cs = resolved_calls_of cg t cs.
Proof.
  intros H. unfold resolved_calls_of.
  induction cs as [|c cs IH]; [done|]. cbn [omap list_omap].
  by rewrite H, IH.
Qed.

Lemma unresolved_names_of_ext cg cg' t cs :
  (∀ t fxn, find_fxn cg' t fxn = find_fxn cg t fxn) →
  unresolved_names_of cg' t cs = unresolved_names_of cg t cs.
Proof.
  intros H. unfold unresolved_names_of.
  induction cs as [|c cs IH]; [done|].
  rewrite !filter_cons, H. destruct (decide _); cbn [list_to_set foldr] in *;
    congruence.
Qed.

Lemma resolve_node_ext cg cg' d :
  (∀ t fxn, find_fxn cg' t fxn = find_fxn cg t fxn) →
  resolve_node cg' d = resolve_node cg d.
Proof.
  intros H. unfold resolve_node.
  by rewrite (resolved_calls_of_ext cg cg'), (unresolved_names_of_ext cg cg').
Qed.

Lemma resolve_node_idemp cg d :
  resolve_node cg (resolve_node cg d) = resolve_node cg d.
Proof. done. Qed.

Section resolve_calls.
Context (cg : CallGraph) (r : node_ref) (t : string).

Lemma resolve_calls_loop cs : ∀ cg' d l u,
  (∀ t fxn, find_fxn cg' t fxn = find_fxn cg t fxn) →
  deref cg' r = Some d → r_calls d = Some l → unresolved_calls d = Some u →
  foldl (resolve_call r t) cg' cs =
  update cg' r (λ d', set_unresolved_calls (u ∪ unresolved_names_of cg t cs)
                        (set_r_calls (l ++ resolved_calls_of cg t cs) d')).
Proof.
  induction cs as [|c cs IH]; intros cg' d l u Hfind Hd Hl Hu; simpl.
  { symmetry. apply update_id. intros d0 Hd0.
    assert (d0 = d) as -> by congruence.
    unfold unresolved_names_of, resolved_calls_of. simpl.
    rewrite app_nil_r, (right_id_L ∅ (∪)).
    destruct d; simpl in *. by rewrite Hl, Hu. }
  unfold resolve_call at 2. rewrite Hfind.
  unfold unresolved_names_of, resolved_calls_of. rewrite filter_cons. simpl.
  destruct (find_fxn cg t c) as [rc|] eqn:Hc.
  - rewrite decide_False by done.
    erewrite IH; [|by intros; rewrite find_fxn_update
                  |by rewrite deref_update_eq, Hd; simpl; rewrite Hl|done..].
    rewrite update_update. apply update_ext. intros d0 Hd0.
    assert (d0 = d) as -> by congruence. simpl. rewrite Hl.
    unfold set_unresolved_calls, set_r_calls. simpl.
    by rewrite <-(assoc_L (++)).
  - rewrite decide_True by done.
    erewrite IH; [|by intros; rewrite find_fxn_update
                  |by rewrite deref_update_eq, Hd; simpl; rewrite Hu|done..].
    rewrite update_update. apply update_ext. intros d0 Hd0.
    assert (d0 = d) as -> by congruence. simpl. rewrite Hu.
    unfold set_unresolved_calls, set_r_calls. simpl.
    f_equal. f_equal. unfold unresolved_names_of. set_solver.
Qed.
End resolve_calls.

Lemma resolve_calls_update cg r d :
  deref cg r = Some d → resolve_calls cg r = update cg r (resolve_node cg).
Proof.
  intros Hd. unfold resolve_calls. rewrite Hd.
  rewrite update_update.
  destruct (calls d) as [cs|] eqn:Hcs.
  - erewrite (resolve_calls_loop cg r (tu d) cs);
      [|by intros; rewrite find_fxn_update
       |by rewrite deref_update_eq, Hd|done..].
    rewrite update_update. apply update_ext. intros d0 Hd0.
    assert (d0 = d) as -> by congruence.
    unfold resolve_node. rewrite Hcs. simpl.
    unfold set_unresolved_calls, set_r_calls. simpl.
    by rewrite (left_id_L ∅ (∪)).
  - apply update_ext. intros d0 Hd0. assert (d0 = d) as -> by congruence.
    unfold resolve_node. by rewrite Hcs.
Qed.

Lemma deref_resolve_calls cg r r' :
  deref (resolve_calls cg r) r' =
  if decide (r = r') then resolve_node cg <$> deref cg r' else deref cg r'.
Proof.
  destruct (deref cg r) as [d|] eqn:Hd.
  - by rewrite (resolve_calls_update cg r d Hd), deref_update.
  - unfold resolve_calls. rewrite Hd.
    destruct (decide (r = r')) as [<-|]; [by rewrite Hd|done].
Qed.

Lemma find_fxn_resolve_calls cg r t fxn :
  find_fxn (resolve_calls cg r) t fxn = find_fxn cg t fxn.
Proof.
  apply find_fxn_ext. intros r'. rewrite deref_resolve_calls.
  destruct (decide _); [|done]. by rewrite fmap_is_Some.
Qed.

Lemma all_refs_resolve_calls cg r :
  all_refs (resolve_calls cg r) = all_refs cg.
Proof.
  destruct (deref cg r) as [d|] eqn:Hd.
  - by rewrite (resolve_calls_update cg r d Hd), all_refs_update.
  - unfold resolve_calls. by rewrite Hd.
Qed.

Lemma unique_keys_update cg r h : unique_keys cg → unique_keys (update cg r h).
Proof.
  unfold unique_keys. destruct r as [f|f t]; simpl; [done|].
  by rewrite dict_keys_alter.
Qed.

Lemma unique_keys_resolve_calls cg r :
  unique_keys cg → unique_keys (resolve_calls cg r).
Proof.
  destruct (deref cg r) as [d|] eqn:Hd.
  - rewrite (resolve_calls_update cg r d Hd). apply unique_keys_update.
  - unfold resolve_calls. by rewrite Hd.
Qed.

Lemma resolve_fold cg rs : ∀ cg',
  (∀ t fxn, find_fxn cg' t fxn = find_fxn cg t fxn) →
  (∀ r, deref (foldl resolve_calls cg' rs) r =
        if decide (r ∈ rs) then resolve_node cg <$> deref cg' r
        else deref cg' r) ∧
  all_refs (foldl resolve_calls cg' rs) = all_refs cg' ∧
  (unique_keys cg' → unique_keys (foldl resolve_calls cg' rs)).
Proof.
  induction rs as [|a rs IH]; intros cg' Hfind; simpl.
  { by split_and!. }
  destruct (IH (resolve_calls cg' a)) as (Hderef & Hrefs & Huk).
  { intros. by rewrite find_fxn_resolve_calls. }
  split_and!.
  - intros r. rewrite Hderef, deref_resolve_calls.
    rewrite (option_fmap_ext (resolve_node cg') (resolve_node cg))
      by (intros; by apply resolve_node_ext).
    assert (resolve_node cg <$> (resolve_node cg <$> deref cg' r) =
            resolve_node cg <$> deref cg' r) as Hid by (by destruct (deref cg' r)).
    destruct (decide (r ∈ rs)), (decide (a = r)) as [->|];
      try rewrite Hid; try done.
    + rewrite decide_True; [done|by left].
    + rewrite decide_True; [done|by right].
    + rewrite decide_True; [done|by left].
    + rewrite decide_False; [done|]. intros [->|]%elem_of_cons; done.
  - by rewrite Hrefs, all_refs_resolve_calls.
  - intros ?. by apply Huk, unique_keys_resolve_calls.
Qed.

(** [resolve_all_calls] rewrites every record by [resolve_node] and
    nothing else. *)
Lemma deref_resolve_all_calls cg r :
  deref (resolve_all_calls cg) r = resolve_node cg <$> deref cg r.
Proof.
  unfold resolve_all_calls.
  destruct (resolve_fold cg (all_refs cg) cg) as (-> & _); [done|].
  destruct (decide _) as [|Hr]; [done|].
  destruct (deref cg r) eqn:Hd; [|done].
  exfalso. apply Hr, deref_all_refs. by rewrite Hd.
Qed.

Lemma all_refs_resolve_all_calls cg :
  all_refs (resolve_all_calls cg) = all_refs cg.
Proof.
  unfold resolve_all_calls.
  by destruct (resolve_fold cg (all_refs cg) cg) as (_ & -> & _).
Qed.

Lemma unique_keys_resolve_all_calls cg :
  unique_keys cg → unique_keys (resolve_all_calls cg).
Proof.
  unfold resolve_all_calls.
  by destruct (resolve_fold cg (all_refs cg) cg) as (_ & _ & ?).
Qed.

Lemma find_fxn_resolve_all_calls cg t fxn :
  find_fxn (resolve_all_calls cg) t fxn = find_fxn cg t fxn.
Proof.
  apply find_fxn_ext. intros r. rewrite deref_resolve_all_calls.
  by rewrite fmap_is_Some.
Qed.

Lemma resolve_all_calls_resolved cg : resolved (resolve_all_calls cg).
Proof.
  intros r d'. rewrite deref_resolve_all_calls.
  destruct (deref cg r) as [d|] eqn:Hd; [|done]. intros [= <-]. split.
  - eexists. split; [done|]. intros c Hc.
    apply list_elem_of_omap in Hc as (call & _ & Hc).
    apply find_fxn_valid in Hc. rewrite deref_resolve_all_calls.
    by rewrite fmap_is_Some.
  - by eexists.
Qed.

(** The two passes of [main] return on every graph. *)
Lemma analysis_total cg :
  unique_keys cg → ∃ cg', calc_all_wcs (resolve_all_calls cg) = Ok cg'.
Proof.
  intros Huk. apply calc_all_wcs_total.
  - apply resolve_all_calls_resolved.
  - by apply unique_keys_resolve_all_calls.
Qed.

(** ** Every stored result is accounted for *)

Lemma tc_first_step {A} (R : relation A) x z :
  tc R x z → ∃ y, R x y ∧ rtc R y z.
Proof.
  destruct 1 as [x z H|x y z H Htc].
  - exists z. split; [done|apply rtc_refl].
  - exists y. split; [done|by apply tc_rtc].
Qed.

Lemma has_ptr_le cg cg' f : graph_le cg cg' → has_ptr cg f → has_ptr cg' f.
Proof.
  intros Hle (d & Hd & Hp).
  destruct (le_deref_Some _ _ Hle f d Hd) as (d' & Hd' & Hdd).
  exists d'. split; [done|].
  pose proof (le_has_ptr_call _ _ Hdd) as H. by rewrite Hp in H.
Qed.

Lemma has_ptr_le_inv cg cg' f : graph_le cg cg' → has_ptr cg' f → has_ptr cg f.
Proof.
  intros Hle (d' & Hd' & Hp).
  destruct (le_deref_Some_inv _ _ Hle f d' Hd') as (d & Hd & Hdd).
  exists d. split; [done|].
  pose proof (le_has_ptr_call _ _ Hdd) as H.
  destruct (has_ptr_call d) as [b|]; [congruence|].
  destruct H; congruence.
Qed.

Lemma le_rtc_edge cg cg' f g :
  graph_le cg cg' → rtc (edge cg) f g ↔ rtc (edge cg') f g.
Proof.
  intros Hle. split; induction 1 as [|x y z H _ IH]; try apply rtc_refl;
    (eapply rtc_l; [|done]); by apply (le_edge _ _ Hle).
Qed.

Lemma tainted_le cg cg' f : graph_le cg cg' → tainted cg f → tainted cg' f.
Proof.
  intros Hle (g & Hfg & Hg). exists g. split.
  - by apply (le_rtc_edge _ _ _ _ Hle).
  - destruct Hg; [left; by eapply has_ptr_le|right].
    by apply (le_tc_edge _ _ Hle).
Qed.

Lemma bounded_result_le cg cg' d cs :
  graph_le cg cg' → Forall (λ c, is_Some (wcs_of cg c)) cs →
  bounded_result cg' d cs = bounded_result cg d cs.
Proof. intros. unfold bounded_result. by rewrite (call_max_from_le cg cg'). Qed.

Lemma callee_done_finalized cg f cs :
  Forall (callee_done cg f) cs → Forall (λ c, is_Some (wcs_of cg c)) cs.
Proof. intros H. eapply Forall_impl; [exact H|]. intros c [[k ->] _]. by eexists. Qed.

Lemma explained_le cg cg' f :
  graph_le cg cg' → is_Some (wcs_of cg f) → explained cg f → explained cg' f.
Proof.
  intros Hle [w Hw]. unfold explained.
  rewrite (le_wcs_of _ _ Hle f w Hw), Hw. destruct w as [k|].
  - intros (Hnp & Hnc & d & cs & Hd & Hcs & Hdone & Hk). split_and!.
    + intros Hp. by apply Hnp, (has_ptr_le_inv cg cg').
    + intros Hc. by apply Hnc, (le_tc_edge _ _ Hle).
    + exists d, cs. split_and!; [|done| |].
      * apply (le_finalized _ _ Hle); [done|].
        apply wcs_of_Some in Hw as (d0 & Hd0 & Hw). exists (Bounded k).
        congruence.
      * eapply Forall_impl; [exact Hdone|]. intros c. by apply le_callee_done.
      * rewrite Hk. symmetry. apply bounded_result_le; [done|].
        by eapply callee_done_finalized.
  - by apply tainted_le.
Qed.

(** A function whose callees are all done, none of them on a cycle,
    is not on a cycle either. *)
Lemma not_on_cycle cg f d cs :
  deref cg f = Some d → wcs d = None → r_calls d = Some cs →
  Forall (callee_done cg f) cs → (∀ c, explained cg c) →
  ¬ on_cycle cg f.
Proof.
  intros Hd Hw Hcs Hdone Hexp Hcyc.
  apply tc_first_step in Hcyc as (c & (d0 & cs0 & Hd0 & Hcs0 & Hc) & Hcf).
  assert (cs0 = cs) as -> by congruence.
  rewrite Forall_forall in Hdone. destruct (Hdone c Hc) as [[k Hk] _].
  assert (c ≠ f) as Hne.
  { intros ->. unfold wcs_of in Hk. rewrite Hd in Hk. simpl in Hk. congruence. }
  specialize (Hexp c). unfold explained in Hexp. rewrite Hk in Hexp.
  destruct Hexp as (_ & Hnc & _). apply Hnc.
  apply rtc_tc in Hcf as [->|Hcf]; [done|].
  eapply tc_r; [done|]. by exists d, cs.
Qed.

Lemma wcs_step_explained cg cg' :
  wcs_step cg cg' → (∀ f, explained cg f) → ∀ f, explained cg' f.
Proof.
  intros Hstep Hexp g.
  pose proof (wcs_step_le _ _ Hstep) as Hle.
  destruct (wcs_of cg g) as [w|] eqn:Hg.
  { apply (explained_le cg); [done|by eexists|done]. }
  unfold explained. destruct (wcs_of cg' g) as [w'|] eqn:Hg'; [|done].
  destruct Hstep as [f d Hd Hw Hp|f d Hd Hw Hp|f d Hd Hw Hp Hc|f d c Hd Hw Hp He Hc
                    |f d u c k x Hd Hw Hp Hu He Hc Hx|f d Hd Hw Hl
                    |f d cs l Hd Hw Hp Hcs Hl Hall];
    rewrite wcs_of_update in Hg';
    (destruct (decide (f = g)) as [<-|]; [|congruence]);
    rewrite Hd in Hg'; simpl in Hg'; try congruence;
    injection Hg' as <-.
  - (* a call through a pointer *)
    exists f. split; [apply rtc_refl|left].
    eexists. rewrite deref_update_eq, Hd. by split.
  - (* recursion *)
    exists f. split; [apply rtc_refl|right]. by apply (le_tc_edge _ _ Hle).
  - (* an unbounded callee *)
    apply (tainted_le cg); [done|].
    pose proof (Hexp c) as Hcexp. unfold explained in Hcexp.
    rewrite Hc in Hcexp. destruct Hcexp as (g & Hcg & Htaint).
    exists g. split; [by eapply rtc_l|done].
  - (* all callees bounded *)
    split_and!.
    + intros (d' & Hd' & Hp'). rewrite deref_update_eq, Hd in Hd'.
      injection Hd' as <-. simpl in Hp'. congruence.
    + intros Hcyc%(le_tc_edge _ _ Hle). by eapply (not_on_cycle cg f).
    + exists (set_wcs (Bounded (with_clob_sp (call_max_from cg 0 cs + l)
                                             (clob_sp d))) d), cs.
      rewrite deref_update_eq, Hd. split_and!; [done|done| |].
      * eapply Forall_impl; [exact Hall|]. intros c. by apply le_callee_done.
      * rewrite (bounded_result_le cg) by (by try eapply callee_done_finalized).
        unfold bounded_result. simpl. by rewrite Hl.
Qed.

Lemma wcs_steps_explained cg cg' :
  rtc wcs_step cg cg' → (∀ f, explained cg f) → ∀ f, explained cg' f.
Proof. induction 1; eauto using wcs_step_explained. Qed.

(** In a loaded graph, once resolved, the results of the manual records
    are accounted for: they have no callees. *)
Lemma loaded_explained cg :
  loaded cg → ∀ f, explained (resolve_all_calls cg) f.
Proof.
  intros Hload f. unfold explained.
  destruct (wcs_of (resolve_all_calls cg) f) as [w|] eqn:Hw; [|done].
  apply wcs_of_Some in Hw as (d' & Hd' & Hw).
  pose proof Hd' as Hd''.
  rewrite deref_resolve_all_calls in Hd'.
  destruct (deref cg f) as [d|] eqn:Hd; [|done]. injection Hd' as <-.
  destruct (Hload f d Hd) as [Hn|(fxn & sz & ->)]; [simpl in Hw; congruence|].
  simpl in Hw. injection Hw as <-.
  assert (∀ c, ¬ edge (resolve_all_calls cg) f c) as Hleaf.
  { intros c (d0 & cs & Hd0 & Hcs & Hc). rewrite Hd'' in Hd0.
    injection Hd0 as <-. simpl in Hcs. injection Hcs as <-.
    by apply elem_of_nil in Hc. }
  split_and!.
  - intros (d0 & Hd0 & Hp). rewrite Hd'' in Hd0. by injection Hd0 as <-.
  - intros Hcyc. apply tc_first_step in Hcyc as (c & Hc & _). by eapply Hleaf.
  - eexists _, []. split_and!; [done|done|constructor|].
    unfold bounded_result. simpl. lia.
Qed.

(** The two passes return, every record has its result, and every result
    is accounted for: it is unbounded exactly for the tainted functions,
    and the sum of [bounded_result] otherwise. *)
Lemma analyze_explained cg :
  unique_keys cg → loaded cg →
  ∃ cg', analyze cg = Ok cg' ∧
         graph_le (resolve_all_calls cg) cg' ∧
         (∀ r d, deref cg' r = Some d → is_Some (wcs d)) ∧
         (∀ f, explained cg' f).
Proof.
  intros Huk Hload. destruct (analysis_total cg Huk) as [cg' Hrun].
  exists cg'. split; [done|].
  apply calc_all_wcs_steps in Hrun as [Hsteps Hall].
  split_and!; [by apply wcs_steps_le|done|].
  eapply wcs_steps_explained; [done|]. by apply loaded_explained.
Qed.

(** ** Consequences for the stored results *)

Lemma all_records_spec cg P :
  all_records cg P = true → ∀ r d, deref cg r = Some d → P r d = true.
Proof.
  unfold all_records. rewrite forallb_forall. intros H r d Hd.
  specialize (H r). rewrite Hd in H. apply H.
  apply list_elem_of_In, deref_all_refs. by rewrite Hd.
Qed.

Lemma loaded_check_loaded cg : loaded_check cg = true → loaded cg.
Proof.
  intros H r d Hd. apply (all_records_spec _ _ H) in Hd.
  destruct (wcs d) as [[sz|]|]; [right|done|by left].
  apply bool_decide_eq_true in Hd. eauto.
Qed.

Lemma callers_first_acyclic order cg :
  callers_first order cg = true → ∀ f, ¬ on_cycle cg f.
Proof.
  intros H.
  assert (∀ f c, edge cg f c → (rank_in order c < rank_in order f)%nat) as Hedge.
  { intros f c (d & cs & Hd & Hcs & Hc).
    apply (all_records_spec _ _ H) in Hd. rewrite Hcs in Hd. simpl in Hd.
    rewrite forallb_forall in Hd. apply list_elem_of_In, Hd in Hc.
    by apply bool_decide_eq_true in Hc. }
  assert (∀ f g, tc (edge cg) f g → (rank_in order g < rank_in order f)%nat)
    as Htc.
  { induction 1 as [f g Hfg|f c g Hfc _ IH]; [by apply Hedge|].
    apply Hedge in Hfc. lia. }
  intros f Hf%Htc. lia.
Qed.

Section explained_facts.
Context (cg : CallGraph).
Context (Hall : ∀ r d, deref cg r = Some d → is_Some (wcs d)).
Context (Hexp : ∀ f, explained cg f).

Lemma edge_source f c : edge cg f c → is_Some (deref cg f).
Proof. intros (d & _ & -> & _). by eexists. Qed.

Lemma stored_result f : is_Some (deref cg f) → is_Some (wcs_of cg f).
Proof.
  intros [d Hd]. destruct (Hall f d Hd) as [w Hw].
  exists w. unfold wcs_of. by rewrite Hd.
Qed.

Lemma bounded_explained f k :
  wcs_of cg f = Some (Bounded k) →
  ¬ has_ptr cg f ∧ ¬ on_cycle cg f ∧
  ∃ d cs, deref cg f = Some d ∧ r_calls d = Some cs ∧
          Forall (callee_done cg f) cs ∧ k = bounded_result cg d cs.
Proof. intros Hk. pose proof (Hexp f) as H. unfold explained in H. by rewrite Hk in H. Qed.

Lemma bounded_callee_done f k c :
  wcs_of cg f = Some (Bounded k) → edge cg f c → callee_done cg f c.
Proof.
  intros (_ & _ & d & cs & Hd & Hcs & Hdone & _)%bounded_explained.
  intros (d' & cs' & Hd' & Hcs' & Hc).
  assert (cs' = cs) as -> by congruence.
  rewrite Forall_forall in Hdone. auto.
Qed.

Lemma bounded_reach f g k :
  rtc (edge cg) f g → wcs_of cg f = Some (Bounded k) →
  ∃ k', wcs_of cg g = Some (Bounded k').
Proof.
  intros Hfg. revert k. induction Hfg as [|f c g Hfc _ IH]; intros k Hk; [eauto|].
  destruct (bounded_callee_done f k c Hk Hfc) as [[k' Hk'] _]. eauto.
Qed.

(** The results are unbounded exactly for the tainted functions. *)
Lemma unbounded_iff_tainted f :
  wcs_of cg f = Some Unbounded ↔ tainted cg f.
Proof.
  split.
  - intros Hw. pose proof (Hexp f) as H. unfold explained in H.
    by rewrite Hw in H.
  - intros (g & Hfg & Hg).
    assert (is_Some (deref cg f)) as Hf.
    { apply rtc_inv in Hfg as [->|(c & Hc & _)]; [|by eapply edge_source].
      destruct Hg as [(d & -> & _)|Hg]; [by eexists|].
      apply tc_first_step in Hg as (c & Hc & _). by eapply edge_source. }
    destruct (stored_result f Hf) as [[k|] Hw]; [exfalso|done].
    destruct (bounded_reach f g k Hfg Hw) as [k' Hk'].
    apply bounded_explained in Hk' as (Hnp & Hnc & _). by destruct Hg.
Qed.

Lemma bounded_or_tainted f :
  is_Some (deref cg f) → ¬ tainted cg f → ∃ k, wcs_of cg f = Some (Bounded k).
Proof.
  intros Hf Hnt. destruct (stored_result f Hf) as [[k|] Hw]; [eauto|].
  by apply unbounded_iff_tainted in Hw.
Qed.

(** A function without pointer call, off every cycle, with bounded
    callees only, is bounded. *)
Lemma bounded_by_callees f :
  is_Some (deref cg f) → ¬ has_ptr cg f → ¬ on_cycle cg f →
  (∀ c, edge cg f c → ∃ k, wcs_of cg c = Some (Bounded k)) →
  ∃ k, wcs_of cg f = Some (Bounded k).
Proof.
  intros Hf Hnp Hnc Hcallees. apply bounded_or_tainted; [done|].
  intros (g & Hfg & Hg).
  apply rtc_inv in Hfg as [->|(c & Hc & Hcg)]; [by destruct Hg|].
  destruct (Hcallees c Hc) as [k Hk].
  assert (wcs_of cg c = Some Unbounded) as Hunb.
  { apply unbounded_iff_tainted. by exists g. }
  congruence.
Qed.
End explained_facts.

Lemma all_records_Prop cg (P : CallNode → Prop) `{∀ d, Decision (P d)} :
  all_records cg (λ _ d, bool_decide (P d)) = true →
  ∀ r d, deref cg r = Some d → P d.
Proof.
  intros Hc r d Hd. apply (all_records_spec _ _ Hc) in Hd.
  by apply bool_decide_eq_true in Hd.
Qed.

Lemma no_ptr_check cg :
  all_records cg (λ _ d, bool_decide (has_ptr_call d ≠ Some true)) = true →
  ∀ f, ¬ has_ptr cg f.
Proof.
  intros Hc f (d & Hd & Hp).
  by apply (all_records_Prop cg (λ d, has_ptr_call d ≠ Some true) Hc f d Hd).
Qed.

Lemma no_ptr_check_at cg f :
  from_option (λ d, bool_decide (has_ptr_call d ≠ Some true)) true (deref cg f)
    = true →
  ¬ has_ptr cg f.
Proof.
  intros Hc (d & Hd & Hp). rewrite Hd in Hc. simpl in Hc.
  by apply bool_decide_eq_true in Hc.
Qed.

(** The loop's maximum, started at 0, against the maximum of the
    specification. *)
Lemma foldr_max_start a k ks :
  foldr Z.max (Z.max a k) ks = Z.max (foldr Z.max a ks) k.
Proof. induction ks as [|k' ks IH]; simpl; [done|]. rewrite IH. lia. Qed.

Lemma foldl_max_foldr ks : ∀ a, foldl Z.max a ks = foldr Z.max a ks.
Proof.
  induction ks as [|k ks IH]; intros a; simpl; [done|].
  rewrite IH, foldr_max_start. lia.
Qed.

Lemma foldl_max_callee_max ks :
  Forall (λ k, 0 ≤ k) ks → foldl Z.max 0 ks = callee_max ks.
Proof.
  destruct 1 as [|k ks Hk _]; simpl; [done|].
  rewrite Z.max_r by done. apply foldl_max_foldr.
Qed.

Lemma call_max_from_values cg m cs :
  call_max_from cg m cs = foldl Z.max m (bounded_value cg <$> cs).
Proof.
  unfold call_max_from. revert m.
  induction cs as [|c cs IH]; intros m; simpl; [done|]. apply IH.
Qed.

Lemma call_max_from_nonneg cg m cs : 0 ≤ m → 0 ≤ call_max_from cg m cs.
Proof.
  unfold call_max_from. revert m.
  induction cs as [|c cs IH]; intros m Hm; simpl; [done|]. apply IH. lia.
Qed.

Lemma node_le_local_stack d d' :
  node_le d d' → default 0 (local_stack d') = default 0 (local_stack d).
Proof.
  intros Hdd. pose proof (le_local_stack _ _ Hdd) as H.
  destruct (local_stack d); [by rewrite H|]. by destruct H as [-> | ->].
Qed.

(** * The claims *)

Lemma has_ptr_resolve_all_calls cg f :
  has_ptr (resolve_all_calls cg) f ↔ has_ptr cg f.
Proof.
  unfold has_ptr. rewrite deref_resolve_all_calls. split.
  - intros (d' & Hd' & Hp). destruct (deref cg f) as [d|]; [|done].
    injection Hd' as <-. by exists d.
  - intros (d & -> & Hp). by eexists.
Qed.

Section analysis.
Context (cg cg' : CallGraph).
Context (Hle : graph_le (resolve_all_calls cg) cg').

Lemma has_ptr_result f : has_ptr cg' f ↔ has_ptr cg f.
Proof.
  rewrite <-(has_ptr_resolve_all_calls cg). split.
  - by apply has_ptr_le_inv.
  - by apply has_ptr_le.
Qed.

Lemma on_cycle_result f : on_cycle cg' f ↔ on_cycle (resolve_all_calls cg) f.
Proof. symmetry. by apply le_tc_edge. Qed.

Lemma edge_result f c : edge cg' f c ↔ edge (resolve_all_calls cg) f c.
Proof. symmetry. by apply le_edge. Qed.

Lemma deref_result f d :
  deref cg f = Some d →
  ∃ d', deref cg' f = Some d' ∧ node_le (resolve_node cg d) d'.
Proof.
  intros Hd. apply (le_deref_Some _ _ Hle).
  by rewrite deref_resolve_all_calls, Hd.
Qed.
End analysis.

(** C5.  A function whose ['has_ptr_call'] is true gets the result
    ['unbounded'], whatever its frame and whatever its callees. *)
Theorem pointer_call_unbounded cg f :
  unique_keys cg → loaded cg → has_ptr cg f →
  ∃ cg', analyze cg = Ok cg' ∧ wcs_of cg' f = Some Unbounded.
Proof.
  intros Huk Hload Hp.
  destruct (analyze_explained cg Huk Hload) as (cg' & Hrun & Hle & Hall & Hexp).
  exists cg'. split; [done|].
  apply unbounded_iff_tainted; [done..|].
  exists f. split; [apply rtc_refl|left]. by apply (has_ptr_result cg cg').
Qed.

Lemma pointer_call_unbounded_witness :
  unique_keys ptr_graph ∧ loaded ptr_graph ∧
  has_ptr ptr_graph (InGlobals "F") ∧
  ∃ cg', analyze ptr_graph = Ok cg' ∧
         wcs_of cg' (InGlobals "F") = Some Unbounded.
Proof.
  assert (unique_keys ptr_graph) as Huk by constructor.
  assert (loaded ptr_graph) as Hload
    by (apply loaded_check_loaded; vm_compute; reflexivity).
  assert (has_ptr ptr_graph (InGlobals "F")) as Hp
    by (eexists; split; vm_compute; reflexivity).
  split_and!; [done..|].
  exact (pointer_call_unbounded ptr_graph (InGlobals "F") Huk Hload Hp).
Defined.

(** C4.  A function that is reachable from itself through resolved calls
    gets the result ['unbounded']; so does every function of the cycle,
    each of them being reachable from itself. *)
Theorem recursion_unbounded cg :
  unique_keys cg → loaded cg →
  ∃ cg', analyze cg = Ok cg' ∧
         ∀ f, on_cycle (resolve_all_calls cg) f → wcs_of cg' f = Some Unbounded.
Proof.
  intros Huk Hload.
  destruct (analyze_explained cg Huk Hload) as (cg' & Hrun & Hle & Hall & Hexp).
  exists cg'. split; [done|]. intros f Hf.
  apply unbounded_iff_tainted; [done..|].
  exists f. split; [apply rtc_refl|right]. by apply (on_cycle_result cg cg').
Qed.

Lemma ab_cycle_edges :
  edge (resolve_all_calls ab_cycle_graph) (InGlobals "A") (InGlobals "B") ∧
  edge (resolve_all_calls ab_cycle_graph) (InGlobals "B") (InGlobals "A").
Proof.
  split; eexists _, _; (split_and!; [vm_compute; reflexivity|reflexivity|]);
    apply list_elem_of_singleton; reflexivity.
Qed.

Lemma recursion_unbounded_witness :
  unique_keys ab_cycle_graph ∧ loaded ab_cycle_graph ∧
  ∃ cg', analyze ab_cycle_graph = Ok cg' ∧
         wcs_of cg' (InGlobals "A") = Some Unbounded ∧
         wcs_of cg' (InGlobals "B") = Some Unbounded.
Proof.
  assert (unique_keys ab_cycle_graph) as Huk by constructor.
  assert (loaded ab_cycle_graph) as Hload
    by (apply loaded_check_loaded; vm_compute; reflexivity).
  split_and!; [done..|].
  destruct (recursion_unbounded ab_cycle_graph Huk Hload) as (cg' & Hrun & H).
  destruct ab_cycle_edges as [Hab Hba].
  exists cg'. split_and!; [done|..]; apply H.
  - eapply tc_l; [exact Hab|]. apply tc_once, Hba.
  - eapply tc_l; [exact Hba|]. apply tc_once, Hab.
Defined.

(** C3.  In a graph without cycles, pointer calls and stack pointer
    clobbers, every function gets the bounded result
    [own stack + callee_max], [callee_max] being the largest result of its
    resolved callees and 0 if it has none.  Frame sizes are byte counts,
    hence not negative; names that do not resolve play no part. *)
Theorem acyclic_worst_case cg :
  unique_keys cg → loaded cg →
  (∀ f, ¬ has_ptr cg f) →
  (∀ f, ¬ on_cycle (resolve_all_calls cg) f) →
  (∀ f d, deref cg f = Some d →
     clob_sp d = None ∧ 0 ≤ default 0 (local_stack d)) →
  ∃ cg', analyze cg = Ok cg' ∧
    ∀ f d, deref cg f = Some d →
      ∃ ks, Forall2 (λ c k, wcs_of cg' c = Some (Bounded k))
              (resolved_calls_of cg (tu d) (default [] (calls d))) ks ∧
            wcs_of cg' f =
              Some (Bounded (default 0 (local_stack d) + callee_max ks)).
Proof.
  intros Huk Hload Hnp Hnc Hbytes.
  destruct (analyze_explained cg Huk Hload) as (cg' & Hrun & Hle & Hall & Hexp).
  exists cg'. split; [done|].
  assert (∀ f, ¬ tainted cg' f) as Hnt.
  { intros f (g & _ & [Hg|Hg]).
    - by apply (Hnp g), (has_ptr_result cg cg').
    - by apply (Hnc g), (on_cycle_result cg cg'). }
  assert (∀ f k, wcs_of cg' f = Some (Bounded k) →
            ∃ d d' cs, deref cg f = Some d ∧ deref cg' f = Some d' ∧
                       node_le (resolve_node cg d) d' ∧
                       r_calls d' = Some cs ∧ Forall (callee_done cg' f) cs ∧
                       k = call_max_from cg' 0 cs + default 0 (local_stack d))
    as Hformula.
  { intros f k Hk.
    apply bounded_explained in Hk as (_ & _ & d' & cs & Hd' & Hcs & Hdone & ->);
      [|done].
    destruct (le_deref_Some_inv _ _ Hle f d' Hd') as (d0 & Hd0 & Hdd).
    rewrite deref_resolve_all_calls in Hd0.
    destruct (deref cg f) as [d|] eqn:Hd; [|done]. injection Hd0 as <-.
    exists d, d', cs. split_and!; try done.
    unfold bounded_result.
    rewrite (le_clob_sp _ _ Hdd), (node_le_local_stack _ _ Hdd). simpl.
    by destruct (Hbytes f d Hd) as [-> _]. }
  assert (∀ f k, wcs_of cg' f = Some (Bounded k) → 0 ≤ k) as Hnonneg.
  { intros f k (d & _ & cs & Hd & _ & _ & _ & _ & ->)%Hformula.
    destruct (Hbytes f d Hd) as [_ Hl].
    pose proof (call_max_from_nonneg cg' 0 cs). lia. }
  intros f d Hd.
  destruct (deref_result cg cg' Hle f d Hd) as (d' & Hd' & Hdd).
  destruct (bounded_or_tainted cg' Hall Hexp f) as [k Hk];
    [by rewrite Hd'|done|].
  destruct (Hformula f k Hk) as (d0 & d0' & cs & Hd0 & Hd0' & _ & Hcs & Hdone & ->).
  assert (d0 = d) as -> by congruence. assert (d0' = d') as -> by congruence.
  assert (cs = resolved_calls_of cg (tu d) (default [] (calls d))) as Hcs'.
  { rewrite (le_r_calls _ _ Hdd) in Hcs. simpl in Hcs. congruence. }
  exists (bounded_value cg' <$> cs). rewrite <-Hcs'. split.
  - apply Forall2_fmap_r, Forall_Forall2_diag.
    eapply Forall_impl; [exact Hdone|]. intros c [[kc Hkc] _]. simpl.
    unfold bounded_value. by rewrite Hkc.
  - rewrite Hk. do 2 f_equal. rewrite call_max_from_values, Z.add_comm.
    f_equal. apply foldl_max_callee_max, Forall_fmap.
    eapply Forall_impl; [exact Hdone|]. intros c [[kc Hkc] _]. simpl.
    unfold bounded_value. rewrite Hkc. by eapply Hnonneg.
Qed.

Lemma acyclic_worst_case_witness :
  unique_keys abc_graph ∧ loaded abc_graph ∧
  (∀ f, ¬ has_ptr abc_graph f) ∧
  (∀ f, ¬ on_cycle (resolve_all_calls abc_graph) f) ∧
  (∀ f d, deref abc_graph f = Some d →
     clob_sp d = None ∧ 0 ≤ default 0 (local_stack d)) ∧
  ∃ cg', analyze abc_graph = Ok cg' ∧
         wcs_of cg' (InGlobals "C") = Some (Bounded 4) ∧
         wcs_of cg' (InGlobals "B") = Some (Bounded 16) ∧
         wcs_of cg' (InGlobals "A") = Some (Bounded 24).
Proof.
  assert (unique_keys abc_graph) as Huk by constructor.
  assert (loaded abc_graph) as Hload
    by (apply loaded_check_loaded; vm_compute; reflexivity).
  assert (∀ f, ¬ has_ptr abc_graph f) as Hnp
    by (apply no_ptr_check; vm_compute; reflexivity).
  assert (∀ f, ¬ on_cycle (resolve_all_calls abc_graph) f) as Hnc.
  { apply (callers_first_acyclic [InGlobals "A"; InGlobals "B"; InGlobals "C"]).
    vm_compute. reflexivity. }
  assert (∀ f d, deref abc_graph f = Some d →
            clob_sp d = None ∧ 0 ≤ default 0 (local_stack d)) as Hbytes.
  { apply (all_records_Prop abc_graph
             (λ d, clob_sp d = None ∧ 0 ≤ default 0 (local_stack d))).
    vm_compute. reflexivity. }
  split_and!; [done..|].
  destruct (acyclic_worst_case abc_graph Huk Hload Hnp Hnc Hbytes)
    as (cg' & Hrun & H).
  exists cg'. split; [done|].
  destruct (H (InGlobals "C") _ eq_refl) as (ksC & HfC & HC).
  apply Forall2_nil_inv_l in HfC as ->.
  destruct (H (InGlobals "B") _ eq_refl) as (ksB & HfB & HB).
  apply Forall2_cons_inv_l in HfB as (kC & ks & HkC & ->%Forall2_nil_inv_l & ->).
  destruct (H (InGlobals "A") _ eq_refl) as (ksA & HfA & HA).
  apply Forall2_cons_inv_l in HfA as (kB & ks & HkB & ->%Forall2_nil_inv_l & ->).
  assert (kC = 4) as -> by (rewrite HC in HkC; by injection HkC).
  assert (kB = 16) as -> by (rewrite HB in HkB; by injection HkB).
  split_and!; [exact HC|exact HB|exact HA].
Defined.

Lemma edge_resolved_calls cg f d c :
  deref cg f = Some d →
  edge (resolve_all_calls cg) f c ↔
  c ∈ resolved_calls_of cg (tu d) (default [] (calls d)).
Proof.
  intros Hd. unfold edge. rewrite deref_resolve_all_calls, Hd. simpl. split.
  - by intros (d' & cs & [= <-] & [= <-] & Hc).
  - intros Hc. by eexists _, _.
Qed.

Lemma unresolved_of_resolve_all_calls cg f d :
  deref cg f = Some d →
  unresolved_of (resolve_all_calls cg) f =
  unresolved_names_of cg (tu d) (default [] (calls d)).
Proof.
  intros Hd. unfold unresolved_of. by rewrite deref_resolve_all_calls, Hd.
Qed.

(** C6, as the code has it.  Take a function without pointer call and
    off every cycle, and let its resolved callees all be bounded.  Then
    it is bounded, whatever names it leaves unresolved, and its
    unresolved names include the names it does not resolve itself and the
    unresolved names of each of its callees. *)
Theorem unresolved_names_surface cg f d :
  unique_keys cg → loaded cg → deref cg f = Some d →
  ¬ has_ptr cg f → ¬ on_cycle (resolve_all_calls cg) f →
  ∃ cg', analyze cg = Ok cg' ∧
    ((∀ c, c ∈ resolved_calls_of cg (tu d) (default [] (calls d)) →
           ∃ k, wcs_of cg' c = Some (Bounded k)) →
     (∃ k, wcs_of cg' f = Some (Bounded k)) ∧
     unresolved_names_of cg (tu d) (default [] (calls d)) ⊆ unresolved_of cg' f ∧
     ∀ c, c ∈ resolved_calls_of cg (tu d) (default [] (calls d)) →
          unresolved_of cg' c ⊆ unresolved_of cg' f).
Proof.
  intros Huk Hload Hd Hnp Hnc.
  destruct (analyze_explained cg Huk Hload) as (cg' & Hrun & Hle & Hall & Hexp).
  exists cg'. split; [done|]. intros Hcallees.
  destruct (deref_result cg cg' Hle f d Hd) as (d' & Hd' & Hdd).
  assert (∃ k, wcs_of cg' f = Some (Bounded k)) as [k Hk].
  { apply (bounded_by_callees cg' Hall Hexp f).
    - by rewrite Hd'.
    - by rewrite (has_ptr_result cg cg').
    - by rewrite (on_cycle_result cg cg').
    - intros c Hc. apply Hcallees.
      by apply (edge_resolved_calls cg f d), (edge_result cg cg'). }
  split_and!; [by exists k| |].
  - rewrite <-(unresolved_of_resolve_all_calls cg f d Hd).
    by apply le_unresolved_of.
  - intros c Hc. eapply bounded_callee_done; [done..|].
    by apply (edge_result cg cg'), (edge_resolved_calls cg f d).
Qed.

Lemma unresolved_names_surface_witness :
  unique_keys unresolved_graph ∧ loaded unresolved_graph ∧
  ¬ has_ptr unresolved_graph (InGlobals "A") ∧
  ¬ on_cycle (resolve_all_calls unresolved_graph) (InGlobals "A") ∧
  ∃ cg', analyze unresolved_graph = Ok cg' ∧
         wcs_of cg' (InGlobals "B") = Some (Bounded 12) ∧
         (∃ k, wcs_of cg' (InGlobals "A") = Some (Bounded k)) ∧
         "x"%string ∈ unresolved_of cg' (InGlobals "A") ∧
         "y"%string ∈ unresolved_of cg' (InGlobals "A").
Proof.
  assert (unique_keys unresolved_graph) as Huk by constructor.
  assert (loaded unresolved_graph) as Hload
    by (apply loaded_check_loaded; vm_compute; reflexivity).
  assert (¬ has_ptr unresolved_graph (InGlobals "A")) as Hnp
    by (apply no_ptr_check; vm_compute; reflexivity).
  assert (¬ on_cycle (resolve_all_calls unresolved_graph) (InGlobals "A")) as Hnc.
  { apply (callers_first_acyclic [InGlobals "A"; InGlobals "B"]).
    vm_compute. reflexivity. }
  split_and!; [done..|].
  destruct (unresolved_names_surface unresolved_graph (InGlobals "A") _
              Huk Hload eq_refl Hnp Hnc) as (cg' & Hrun & H).
  exists cg'. split; [done|].
  assert (wcs_of cg' (InGlobals "B") = Some (Bounded 12) ∧
          "y"%string ∈ unresolved_of cg' (InGlobals "B")) as [HB HyB].
  { pose proof Hrun as E. vm_compute in E. injection E as <-.
    split; vm_compute; reflexivity. }
  destruct H as (HA & Hown & Hcallees).
  { intros c ->%list_elem_of_singleton. by exists 12. }
  split_and!; [done|done|..].
  - apply Hown. vm_compute. reflexivity.
  - apply (Hcallees (InGlobals "B")); [|done].
    apply list_elem_of_singleton. reflexivity.
Defined.

(** C6 as it is stated fails: [F] has no pointer call and is on no
    cycle, and is unbounded through its callee [G]. *)
Lemma unresolved_names_counterexample :
  ¬ has_ptr ptr_callee_graph (InGlobals "F") ∧
  ¬ on_cycle (resolve_all_calls ptr_callee_graph) (InGlobals "F") ∧
  unresolved_of (resolve_all_calls ptr_callee_graph) (InGlobals "F")
    = {["x"%string]} ∧
  ∃ cg', analyze ptr_callee_graph = Ok cg' ∧
         wcs_of cg' (InGlobals "F") = Some Unbounded.
Proof.
  split_and!.
  - apply no_ptr_check_at. vm_compute. reflexivity.
  - apply (callers_first_acyclic [InGlobals "F"; InGlobals "G"]).
    vm_compute. reflexivity.
  - vm_compute. reflexivity.
  - eexists. split; vm_compute; reflexivity.
Qed.

Lemma wcs_steps_unique_keys cg cg' :
  rtc wcs_step cg cg' → unique_keys cg → unique_keys cg'.
Proof.
  induction 1 as [|cg1 cg2 cg3 Hstep _ IH]; [done|]. intros Huk. apply IH.
  destruct Hstep; by apply unique_keys_update.
Qed.

(** With every result stored, [calc_all_wcs] writes nothing. *)
Lemma calc_all_wcs_finalized cg :
  unique_keys cg → (∀ r d, deref cg r = Some d → is_Some (wcs d)) →
  calc_all_wcs cg = Ok cg.
Proof.
  intros Huk Hall. unfold calc_all_wcs, calc_all_wcs_from.
  assert (∀ r, r ∈ all_refs cg → is_Some (deref cg r)) as Hv
    by (intros r; by apply all_refs_deref).
  set (fuel := length (all_refs cg)). clearbody fuel.
  induction (all_refs cg) as [|r rs IH]; simpl; [done|].
  destruct (Hv r) as [d Hd]; [by left|].
  rewrite (proj2 (get_Ok cg r d) Hd). simpl.
  rewrite bool_decide_eq_true_2 by eauto. simpl.
  apply IH. intros r' Hr'. apply Hv. by right.
Qed.

(** C8, as the code has it.  A second run of the two passes leaves every
    result and every list of resolved callees as the first run left them;
    the unresolved names of a function are then those of its own calls
    that do not resolve, a subset of what the first run left: the names
    it took over from its callees are not added again, no function being
    evaluated twice. *)
Theorem rerun_results cg :
  unique_keys cg →
  ∃ cg1 cg2, analyze cg = Ok cg1 ∧ analyze cg1 = Ok cg2 ∧
    ∀ f d, deref cg f = Some d →
      wcs_of cg2 f = wcs_of cg1 f ∧
      r_calls_of cg2 f = r_calls_of cg1 f ∧
      unresolved_of cg2 f = unresolved_names_of cg (tu d) (default [] (calls d)) ∧
      unresolved_of cg2 f ⊆ unresolved_of cg1 f.
Proof.
  intros Huk. destruct (analysis_total cg Huk) as [cg1 Hrun]. fold (analyze cg) in Hrun.
  pose proof Hrun as Hrun1.
  apply calc_all_wcs_steps in Hrun as [Hsteps Hall].
  pose proof (wcs_steps_le _ _ Hsteps) as Hle.
  assert (unique_keys cg1) as Huk1.
  { eapply wcs_steps_unique_keys; [done|]. by apply unique_keys_resolve_all_calls. }
  assert (analyze cg1 = Ok (resolve_all_calls cg1)) as Hrun2.
  { apply calc_all_wcs_finalized; [by apply unique_keys_resolve_all_calls|].
    intros r d'. rewrite deref_resolve_all_calls.
    destruct (deref cg1 r) as [d1|] eqn:Hd1; [|done]. intros [= <-]. simpl.
    eauto. }
  assert (∀ t fxn, find_fxn cg1 t fxn = find_fxn cg t fxn) as Hfind.
  { intros t fxn. rewrite <-(find_fxn_resolve_all_calls cg).
    apply find_fxn_ext. intros r. by apply le_deref_is_Some. }
  exists cg1, (resolve_all_calls cg1). split_and!; [done..|].
  intros f d Hd.
  destruct (deref_result cg cg1 Hle f d Hd) as (d1 & Hd1 & Hdd).
  assert (unresolved_of (resolve_all_calls cg1) f =
          unresolved_names_of cg (tu d) (default [] (calls d))) as Hown.
  { rewrite (unresolved_of_resolve_all_calls cg1 f d1 Hd1).
    rewrite (le_tu _ _ Hdd), (le_calls _ _ Hdd). simpl.
    by apply unresolved_names_of_ext. }
  unfold wcs_of, r_calls_of.
  rewrite deref_resolve_all_calls, Hd1. simpl. split_and!; [done| |done|].
  - rewrite (le_r_calls _ _ Hdd), (le_tu _ _ Hdd), (le_calls _ _ Hdd). simpl.
    f_equal. by apply resolved_calls_of_ext.
  - rewrite Hown, <-(unresolved_of_resolve_all_calls cg f d Hd).
    by apply le_unresolved_of.
Qed.

Lemma rerun_results_witness :
  unique_keys unresolved_graph ∧
  ∃ cg1 cg2, analyze unresolved_graph = Ok cg1 ∧ analyze cg1 = Ok cg2 ∧
    wcs_of cg2 (InGlobals "A") = wcs_of cg1 (InGlobals "A") ∧
    r_calls_of cg2 (InGlobals "A") = r_calls_of cg1 (InGlobals "A") ∧
    unresolved_of cg2 (InGlobals "A") = {["x"%string]} ∧
    unresolved_of cg2 (InGlobals "A") ⊆ unresolved_of cg1 (InGlobals "A").
Proof.
  assert (unique_keys unresolved_graph) as Huk by constructor.
  split; [done|].
  destruct (rerun_results unresolved_graph Huk) as (cg1 & cg2 & H1 & H2 & H).
  destruct (H (InGlobals "A") _ eq_refl) as (Hw & Hr & Hu & Hsub).
  exists cg1, cg2. split_and!; [exact H1|exact H2|exact Hw|exact Hr| |exact Hsub].
  rewrite Hu. vm_compute. reflexivity.
Defined.

(** C8 as it is stated fails: after the first run [A] has the unresolved
    name [y] of its callee [B], after the second run it does not. *)
Lemma rerun_counterexample :
  ∃ cg1 cg2, analyze unresolved_graph = Ok cg1 ∧ analyze cg1 = Ok cg2 ∧
    "y"%string ∈ unresolved_of cg1 (InGlobals "A") ∧
    "y"%string ∉ unresolved_of cg2 (InGlobals "A").
Proof.
  eexists _, _. split_and!.
  - vm_compute. reflexivity.
  - vm_compute. reflexivity.
  - vm_compute. reflexivity.
  - intros H. vm_compute in H. discriminate H.
Qed.

Lemma deref_read_manual cg fxn stack_sz r :
  deref (set_globals (dict_set fxn (manual_node fxn stack_sz) (globals cg)) cg) r =
  if decide (r = InGlobals fxn) then Some (manual_node fxn stack_sz)
  else deref cg r.
Proof.
  destruct r as [g|g t]; simpl.
  - rewrite dict_get_set. destruct (decide (fxn = g)) as [->|].
    + by rewrite decide_True.
    + rewrite decide_False; [done|congruence].
  - done.
Qed.

(** C9.  A line [fxn stack_sz] of a manual file, for a name that is not a
    global yet, registers a record that ends with the result [stack_sz],
    no resolved callees and no unresolved names; a function without
    pointer call and clobber whose only resolved callee is that record
    ends with its own frame plus [stack_sz]: 8 + 16 = 24. *)
Theorem manual_override_leaf cg fxn stack_sz :
  unique_keys cg → dict_get fxn (globals cg) = None →
  ∃ cg1 cg', read_manual_line cg (fxn, stack_sz) = Ok cg1 ∧
    analyze cg1 = Ok cg' ∧
    wcs_of cg' (InGlobals fxn) = Some (Bounded stack_sz) ∧
    r_calls_of cg' (InGlobals fxn) = Some [] ∧
    (d ← deref cg' (InGlobals fxn); unresolved_calls d) = Some ∅ ∧
    (loaded cg → ∀ caller d,
       deref cg1 caller = Some d → ¬ has_ptr cg1 caller → clob_sp d = None →
       resolved_calls_of cg1 (tu d) (default [] (calls d)) = [InGlobals fxn] →
       wcs_of cg' caller =
         Some (Bounded (default 0 (local_stack d) + Z.max 0 stack_sz))).
Proof.
  intros Huk Hfresh.
  set (cg1 := set_globals (dict_set fxn (manual_node fxn stack_sz) (globals cg)) cg).
  assert (read_manual_line cg (fxn, stack_sz) = Ok cg1) as Hread.
  { unfold read_manual_line.
    by rewrite (proj2 (dict_mem_false fxn (globals cg)) Hfresh). }
  assert (unique_keys cg1) as Huk1 by done.
  destruct (analysis_total cg1 Huk1) as [cg' Hrun]. fold (analyze cg1) in Hrun.
  exists cg1, cg'. split_and!; [done..| | | |].
  all: pose proof Hrun as Hrun'.
  all: apply calc_all_wcs_steps in Hrun' as [Hsteps Hall].
  all: pose proof (wcs_steps_le _ _ Hsteps) as Hle.
  all: assert (deref cg1 (InGlobals fxn) = Some (manual_node fxn stack_sz)) as Hm
         by (unfold cg1; by rewrite deref_read_manual, decide_True).
  all: assert (deref cg' (InGlobals fxn) =
               Some (resolve_node cg1 (manual_node fxn stack_sz))) as Hm'
         by (apply (le_finalized _ _ Hle);
             [by rewrite deref_resolve_all_calls, Hm|by eexists]).
  - unfold wcs_of. by rewrite Hm'.
  - unfold r_calls_of. by rewrite Hm'.
  - by rewrite Hm'.
  - intros Hload caller d Hd Hnp Hclob Hcs.
    assert (loaded cg1) as Hload1.
    { intros r d0. unfold cg1. rewrite deref_read_manual.
      destruct (decide _); [intros [= <-]; eauto|apply Hload]. }
    destruct (analyze_explained cg1 Huk1 Hload1)
      as (cg'' & Hrun'' & _ & _ & Hexp).
    assert (cg'' = cg') as -> by congruence.
    assert (∀ c, edge cg' caller c → c = InGlobals fxn) as Honly.
    { intros c Hc%(edge_result cg1 cg' Hle).
      apply (edge_resolved_calls cg1 caller d c Hd) in Hc. rewrite Hcs in Hc.
      by apply list_elem_of_singleton in Hc. }
    assert (∀ c, ¬ edge cg' (InGlobals fxn) c) as Hleaf.
    { intros c (d0 & cs & Hd0 & Hcs0 & Hc). rewrite Hm' in Hd0.
      injection Hd0 as <-. simpl in Hcs0. injection Hcs0 as <-.
      by apply elem_of_nil in Hc. }
    assert (caller ≠ InGlobals fxn) as Hne.
    { intros ->. rewrite Hm in Hd. injection Hd as <-. done. }
    destruct (deref_result cg1 cg' Hle caller d Hd) as (d' & Hd' & Hdd).
    destruct (bounded_by_callees cg' Hall Hexp caller) as [k Hk].
    + by rewrite Hd'.
    + by rewrite (has_ptr_result cg1 cg').
    + intros (c & Hc & Hback)%tc_first_step.
      apply Honly in Hc as ->.
      apply rtc_inv in Hback as [<-|(c & Hc & _)]; [done|by eapply Hleaf].
    + intros c ->%Honly. exists stack_sz. unfold wcs_of. by rewrite Hm'.
    + rewrite Hk. do 2 f_equal.
      apply bounded_explained in Hk
        as (_ & _ & d0 & cs & Hd0 & Hcs0 & _ & ->); [|done].
      assert (d0 = d') as -> by congruence.
      rewrite (le_r_calls _ _ Hdd) in Hcs0. simpl in Hcs0. rewrite Hcs in Hcs0.
      injection Hcs0 as <-. unfold bounded_result.
      rewrite (le_clob_sp _ _ Hdd), (node_le_local_stack _ _ Hdd). simpl.
      rewrite Hclob. simpl.
      assert (bounded_value cg' (InGlobals fxn) = stack_sz) as Hbv.
      { unfold bounded_value, wcs_of. by rewrite Hm'. }
      unfold call_max_from. cbn [foldl]. rewrite Hbv. lia.
Qed.

Lemma manual_override_leaf_witness :
  unique_keys assert_caller_graph ∧
  dict_get "__assert_func"%string (globals assert_caller_graph) = None ∧
  loaded assert_caller_graph ∧
  ∃ cg1 cg', read_manual_line assert_caller_graph ("__assert_func"%string, 16)
               = Ok cg1 ∧
    analyze cg1 = Ok cg' ∧
    wcs_of cg' (InGlobals "__assert_func") = Some (Bounded 16) ∧
    r_calls_of cg' (InGlobals "__assert_func") = Some [] ∧
    (d ← deref cg' (InGlobals "__assert_func"); unresolved_calls d) = Some ∅ ∧
    wcs_of cg' (InGlobals "caller") = Some (Bounded 24).
Proof.
  assert (unique_keys assert_caller_graph) as Huk by constructor.
  assert (loaded assert_caller_graph) as Hload
    by (apply loaded_check_loaded; vm_compute; reflexivity).
  split_and!; [done|reflexivity|done|].
  destruct (manual_override_leaf assert_caller_graph "__assert_func" 16 Huk eq_refl)
    as (cg1 & cg' & Hread & Hrun & Hw & Hr & Hu & Hcaller).
  exists cg1, cg'. split_and!; [exact Hread|exact Hrun|exact Hw|exact Hr|exact Hu|].
  pose proof Hread as E. vm_compute in E. injection E as <-.
  apply (Hcaller Hload (InGlobals "caller")
           (read_node "main" "caller" ["__assert_func"%string] false 8 None)).
  - vm_compute. reflexivity.
  - apply no_ptr_check_at. vm_compute. reflexivity.
  - reflexivity.
  - vm_compute. reflexivity.
Defined.

(** What the code stores for a function with ['clob_sp']: the sum of the
    frame and the largest callee twice, plus the clobbered bytes. *)
Lemma clob_sp_result cg f d c :
  unique_keys cg → loaded cg → deref cg f = Some d → clob_sp d = Some c →
  ∃ cg', analyze cg = Ok cg' ∧
    ∀ k, wcs_of cg' f = Some (Bounded k) →
      ∃ cs, r_calls_of cg' f = Some cs ∧
            k = 2 * (call_max_from cg' 0 cs + default 0 (local_stack d)) + c.
Proof.
  intros Huk Hload Hd Hclob.
  destruct (analyze_explained cg Huk Hload) as (cg' & Hrun & Hle & Hall & Hexp).
  exists cg'. split; [done|]. intros k Hk.
  apply bounded_explained in Hk as (_ & _ & d' & cs & Hd' & Hcs & _ & ->);
    [|done].
  destruct (deref_result cg cg' Hle f d Hd) as (d0 & Hd0 & Hdd).
  assert (d0 = d') as -> by congruence.
  exists cs. split; [unfold r_calls_of; by rewrite Hd'|].
  unfold bounded_result.
  rewrite (le_clob_sp _ _ Hdd), (node_le_local_stack _ _ Hdd). simpl.
  rewrite Hclob. simpl. lia.
Qed.

(** C2.  On [clob_graph], [F] has a frame of 8 bytes, 4 clobbered bytes
    and no callee: frame plus clobber plus largest callee is
    8 + 4 + 0 = 12, the code stores 8 + (8 + 4) = 20. *)
Theorem clob_sp_doubles_frame :
  ∃ cg', analyze clob_graph = Ok cg' ∧
         r_calls_of cg' (InGlobals "F") = Some [] ∧
         wcs_of cg' (InGlobals "F") = Some (Bounded 20) ∧
         wcs_of cg' (InGlobals "F") ≠ Some (Bounded (8 + 4 + 0)).
Proof.
  eexists. split_and!; [vm_compute; reflexivity..|].
  vm_compute. discriminate.
Qed.

(** The loop of [check_stack_size] over records that all have a result,
    one of them ['unbounded']. *)
Lemma check_loop_unbounded cg rs : ∀ m,
  (∀ r, r ∈ rs → is_Some (wcs_of cg r)) →
  (∃ f, f ∈ rs ∧ wcs_of cg f = Some Unbounded) →
  foldM (check_one cg) m rs = Err TypeError.
Proof.
  induction rs as [|r rs IH]; intros m Hall (f & Hf & Hunb).
  { by apply elem_of_nil in Hf. }
  simpl. destruct (Hall r) as [w Hw]; [by left|].
  apply wcs_of_Some in Hw as (d & Hd & Hw).
  assert (w = Unbounded → check_one cg m r = Err TypeError) as Hraise.
  { intros ->. unfold check_one. rewrite (proj2 (get_Ok cg r d) Hd). simpl.
    rewrite Hw. by destruct (String.prefix "_irq" (name d)). }
  assert (∀ n, w = Bounded n → ∃ m', check_one cg m r = Ok m') as Hpass.
  { intros n ->. unfold check_one. rewrite (proj2 (get_Ok cg r d) Hd). simpl.
    rewrite Hw. destruct (String.prefix "_irq" (name d)); simpl; by eexists. }
  destruct w as [n|]; [|by rewrite Hraise].
  destruct (Hpass n eq_refl) as [m' ->]. simpl. apply IH.
  - intros r' Hr'. apply Hall. by right.
  - exists f. split; [|done]. apply elem_of_cons in Hf as [->|]; [|done].
    unfold wcs_of in Hunb. rewrite Hd in Hunb. simpl in Hunb. congruence.
Qed.

(** C1.  With the result ['unbounded'] stored in some record, the loop of
    [check_stack_size] raises [TypeError] at the first such record: the
    check reports neither a pass nor a failure, and says nothing of the
    unbounded function. *)
Theorem budget_check_unbounded cg stack_size f :
  (∀ r, r ∈ all_refs cg → is_Some (wcs_of cg r)) →
  f ∈ all_refs cg → wcs_of cg f = Some Unbounded →
  check_stack_size cg stack_size = Err TypeError.
Proof.
  intros Hall Hf Hunb. unfold check_stack_size.
  rewrite (check_loop_unbounded cg (all_refs cg)); [done|done|by exists f].
Qed.

Lemma budget_check_unbounded_witness :
  (∀ r, r ∈ all_refs ptr_graph_result → is_Some (wcs_of ptr_graph_result r)) ∧
  InGlobals "F" ∈ all_refs ptr_graph_result ∧
  wcs_of ptr_graph_result (InGlobals "F") = Some Unbounded ∧
  check_stack_size ptr_graph_result 256 = Err TypeError.
Proof.
  assert (∀ r, r ∈ all_refs ptr_graph_result →
               is_Some (wcs_of ptr_graph_result r)) as Hall.
  { intros r Hr. vm_compute in Hr.
    apply elem_of_cons in Hr as [->|Hr]; [by eexists|].
    apply elem_of_cons in Hr as [->|Hr]; [by eexists|].
    by apply elem_of_nil in Hr. }
  assert (InGlobals "F" ∈ all_refs ptr_graph_result) as Hf by (by left).
  assert (wcs_of ptr_graph_result (InGlobals "F") = Some Unbounded) as Hunb
    by (vm_compute; reflexivity).
  split_and!; [done..|].
  exact (budget_check_unbounded ptr_graph_result 256 (InGlobals "F") Hall Hf Hunb).
Defined.

(** The example of the specification: 240 bytes for the worst ordinary
    function and 64 for the worst handler fail a limit of 256 bytes. *)
Example budget_check_example :
  check_stack_size
    (graph_of
       [("main"%string,
          set_wcs (Bounded 240) (read_node "m" "main" [] false 240 None));
        ("_irq_timer"%string,
          set_wcs (Bounded 64) (read_node "m" "_irq_timer" [] false 64 None))])
    256
  = Ok (TooSmall 304 256 "_irq_timer" "main").
Proof. reflexivity. Qed.

(** C10.  A GLOBAL function symbol is refused when some unit has a local
    of that name; a LOCAL one is accepted when a global of that name
    exists, its own unit having no local of that name. *)
Theorem collision_asymmetry cg t n :
  ((∃ u, is_Some (deref cg (InLocals n u))) →
   read_obj_symbol t cg (func_symbol "GLOBAL" n)
     = Err (multiple_declarations n)) ∧
  (is_Some (dict_get n (globals cg)) → deref cg (InLocals n t) = None →
   ∃ cg', read_obj_symbol t cg (func_symbol "LOCAL" n) = Ok cg' ∧
          deref cg' (InLocals n t) = Some (new_node t n "LOCAL") ∧
          globals cg' = globals cg).
Proof.
  split.
  - intros [u [d Hd]]. unfold read_obj_symbol. simpl in *.
    destruct (dict_get n (locals cg)) as [l|] eqn:Hl; [|done].
    rewrite (proj2 (dict_mem_true n (locals cg))) by (by rewrite Hl).
    by rewrite orb_true_r.
  - intros Hg Hl. unfold read_obj_symbol. simpl in *.
    rewrite (bool_decide_eq_false_2 (is_Some _)) by (rewrite Hl; by intros [? ?]).
    rewrite andb_false_r. eexists. split; [done|]. split; [|done]. simpl.
    destruct (dict_mem n (locals cg)) eqn:Hm.
    + apply dict_mem_true in Hm as [l Hn].
      rewrite dict_get_alter, decide_True, Hn by done. simpl.
      by rewrite dict_get_set, decide_True.
    + rewrite dict_get_alter, decide_True, dict_get_set, decide_True by done.
      simpl. by rewrite decide_True.
Qed.

Lemma collision_asymmetry_witness :
  (∃ u, is_Some (deref local_f_graph (InLocals "f" u))) ∧
  read_obj_symbol "b.c" local_f_graph (func_symbol "GLOBAL" "f")
    = Err (multiple_declarations "f") ∧
  is_Some (dict_get "f"%string (globals global_f_graph)) ∧
  deref global_f_graph (InLocals "f" "b.c") = None ∧
  ∃ cg', read_obj_symbol "b.c" global_f_graph (func_symbol "LOCAL" "f") = Ok cg' ∧
         deref cg' (InLocals "f" "b.c") = Some (new_node "b.c" "f" "LOCAL") ∧
         globals cg' = globals global_f_graph.
Proof.
  assert (∃ u, is_Some (deref local_f_graph (InLocals "f" u))) as H1
    by (exists "a.c"%string; by eexists).
  assert (is_Some (dict_get "f"%string (globals global_f_graph))) as H2
    by (by eexists).
  split_and!; [exact H1| |exact H2|reflexivity|].
  - exact (proj1 (collision_asymmetry local_f_graph "b.c" "f") H1).
  - exact (proj2 (collision_asymmetry global_f_graph "b.c" "f") H2 eq_refl).
Defined.

(** C7.  [lookup] returns the global record of the name if there is one,
    else the local record of the name in the unit, else nothing. *)
Theorem lookup_precedence cg unit fxn :
  lookup cg unit fxn =
  match dict_get fxn (globals cg) with
  | Some d => Some d
  | None => l ← dict_get fxn (locals cg); dict_get unit l
  end.
Proof.
  unfold lookup, find_fxn.
  destruct (dict_get fxn (globals cg)) as [d|] eqn:Hg.
  - rewrite (proj2 (dict_mem_true fxn (globals cg))) by (by rewrite Hg).
    simpl. by rewrite Hg.
  - rewrite (proj2 (dict_mem_false fxn (globals cg)) Hg).
    by destruct (dict_get fxn (locals cg) ≫= dict_get unit) eqn:Hl.
Qed.

(** * Further properties of the code *)

(** ** Registration and lookup *)

Lemma lookup_cases cg unit fxn :
  lookup cg unit fxn =
  match dict_get fxn (globals cg) with
  | Some d => Some d
  | None => deref cg (InLocals fxn unit)
  end.
Proof.
  unfold lookup, find_fxn.
  destruct (dict_get fxn (globals cg)) as [d|] eqn:Hg.
  - rewrite (proj2 (dict_mem_true fxn (globals cg))) by (by rewrite Hg).
    simpl. by rewrite Hg.
  - rewrite (proj2 (dict_mem_false fxn (globals cg)) Hg). simpl.
    by destruct (dict_get fxn (locals cg) ≫= dict_get unit) eqn:Hl.
Qed.

Lemma dict_get_set_eq {V} k (v : V) d : dict_get k (dict_set k v d) = Some v.
Proof. by rewrite dict_get_set, decide_True. Qed.

Lemma dict_get_set_ne {V} k k' (v : V) d :
  k' ≠ k → dict_get k (dict_set k' v d) = dict_get k d.
Proof. intros. by rewrite dict_get_set, decide_False. Qed.

(** A GLOBAL function symbol whose name is neither a global nor a local
    yet is registered; every unit then looks up the new record under that
    name, other names are looked up as before, and registering the name
    as GLOBAL once more is refused. *)
Theorem register_global_lookup cg t n :
  dict_get n (globals cg) = None → dict_get n (locals cg) = None →
  ∃ cg', read_obj_symbol t cg (func_symbol "GLOBAL" n) = Ok cg' ∧
    (∀ u, lookup cg' u n = Some (new_node t n "GLOBAL")) ∧
    (∀ u m, m ≠ n → lookup cg' u m = lookup cg u m) ∧
    read_obj_symbol t cg' (func_symbol "GLOBAL" n)
      = Err (multiple_declarations n).
Proof.
  intros Hg Hl. unfold read_obj_symbol. simpl.
  rewrite (proj2 (dict_mem_false n (globals cg)) Hg),
          (proj2 (dict_mem_false n (locals cg)) Hl). simpl.
  eexists. split; [done|]. split_and!.
  - intros u. rewrite lookup_cases. simpl. by rewrite dict_get_set_eq.
  - intros u m Hm. rewrite !lookup_cases. simpl.
    by rewrite dict_get_set_ne by done.
  - rewrite (proj2 (dict_mem_true n _)); [done|].
    simpl. rewrite dict_get_set_eq. by eexists.
Qed.

Lemma register_global_lookup_witness :
  dict_get "f"%string (globals empty_graph) = None ∧
  dict_get "f"%string (locals empty_graph) = None ∧
  ∃ cg', read_obj_symbol "a.c" empty_graph (func_symbol "GLOBAL" "f") = Ok cg' ∧
    (∀ u, lookup cg' u "f" = Some (new_node "a.c" "f" "GLOBAL")) ∧
    (∀ u m, m ≠ "f"%string → lookup cg' u m = lookup empty_graph u m) ∧
    read_obj_symbol "a.c" cg' (func_symbol "GLOBAL" "f")
      = Err (multiple_declarations "f").
Proof.
  split_and!; [reflexivity..|].
  exact (register_global_lookup empty_graph "a.c" "f" eq_refl eq_refl).
Defined.

(** A LOCAL function symbol whose unit has no local of that name yet is
    registered, whatever the globals and the other units hold; its unit
    then looks up the new record under that name when no global has the
    name, the other units and the other names are looked up as before, and
    registering it in the same unit once more is refused. *)
Theorem register_local_lookup cg t n :
  deref cg (InLocals n t) = None →
  ∃ cg', read_obj_symbol t cg (func_symbol "LOCAL" n) = Ok cg' ∧
    (dict_get n (globals cg) = None →
     lookup cg' t n = Some (new_node t n "LOCAL")) ∧
    (∀ u, u ≠ t → lookup cg' u n = lookup cg u n) ∧
    (∀ u m, m ≠ n → lookup cg' u m = lookup cg u m) ∧
    read_obj_symbol t cg' (func_symbol "LOCAL" n)
      = Err (multiple_declarations n).
Proof.
  intros Hl. unfold read_obj_symbol at 1. simpl in *.
  rewrite (bool_decide_eq_false_2 (is_Some _)) by (rewrite Hl; by intros [? ?]).
  rewrite andb_false_r. eexists. split; [done|].
  set (ls := if dict_mem n (locals cg) then locals cg
             else dict_set n [] (locals cg)).
  assert (∀ m, m ≠ n → dict_get m ls = dict_get m (locals cg)) as Hother.
  { intros m Hm. unfold ls. destruct (dict_mem n (locals cg)); [done|].
    by rewrite dict_get_set_ne. }
  assert (∃ l, dict_get n ls = Some l ∧
               ∀ u, u ≠ t → dict_get u l = deref cg (InLocals n u)) as (l & Hn & Hu).
  { unfold ls. simpl. destruct (dict_mem n (locals cg)) eqn:Hm.
    - apply dict_mem_true in Hm as [l Hn]. exists l. split; [done|].
      intros u _. by rewrite Hn.
    - exists []. rewrite dict_get_set_eq. split; [done|].
      apply dict_mem_false in Hm. intros u _. by rewrite Hm. }
  assert (∀ u, deref (set_locals
                 (dict_alter (dict_set t (new_node t n "LOCAL")) n ls) cg)
                 (InLocals n u) =
               if decide (t = u) then Some (new_node t n "LOCAL")
               else deref cg (InLocals n u)) as Hderef.
  { intros u. simpl. rewrite dict_get_alter, decide_True, Hn by done. simpl.
    rewrite dict_get_set. destruct (decide (t = u)); [done|]. by apply Hu. }
  split_and!.
  - intros Hg. rewrite lookup_cases. simpl globals. rewrite Hg, Hderef.
    by rewrite decide_True.
  - intros u Hne. rewrite !lookup_cases. simpl globals.
    destruct (dict_get n (globals cg)); [done|].
    rewrite Hderef. by rewrite decide_False.
  - intros u m Hm. rewrite !lookup_cases. simpl.
    destruct (dict_get m (globals cg)); [done|].
    by rewrite dict_get_alter, decide_False, Hother by done.
  - unfold read_obj_symbol. simpl String.eqb. cbv iota.
    specialize (Hderef t). rewrite decide_True in Hderef by done.
    simpl in Hderef.
    rewrite (proj2 (dict_mem_true n _)).
    + rewrite bool_decide_eq_true_2; [done|]. simpl. rewrite Hderef. by eexists.
    + simpl. rewrite dict_get_alter, decide_True, Hn by done. by eexists.
Qed.

Lemma register_local_lookup_witness :
  deref global_f_graph (InLocals "f" "b.c") = None ∧
  ∃ cg', read_obj_symbol "b.c" global_f_graph (func_symbol "LOCAL" "f") = Ok cg' ∧
    (∀ u, u ≠ "b.c"%string → lookup cg' u "f" = lookup global_f_graph u "f") ∧
    (∀ u m, m ≠ "f"%string → lookup cg' u m = lookup global_f_graph u m) ∧
    read_obj_symbol "b.c" cg' (func_symbol "LOCAL" "f")
      = Err (multiple_declarations "f").
Proof.
  split; [reflexivity|].
  destruct (register_local_lookup global_f_graph "b.c" "f" eq_refl)
    as (cg' & Hreg & _ & Hu & Hm & Hdup).
  exists cg'. split_and!; [exact Hreg|exact Hu|exact Hm|exact Hdup].
Defined.

(** A manual line for a name that is not a global is accepted whatever
    the locals hold; every unit then looks up the manual record under
    that name (a local of the same name is shadowed), the locals are left
    as they were, and a second line for the name is refused. *)
Theorem read_manual_shadows cg fxn stack_sz :
  dict_get fxn (globals cg) = None →
  ∃ cg', read_manual_line cg (fxn, stack_sz) = Ok cg' ∧
    (∀ u, lookup cg' u fxn = Some (manual_node fxn stack_sz)) ∧
    (∀ u m, m ≠ fxn → lookup cg' u m = lookup cg u m) ∧
    locals cg' = locals cg ∧
    ∀ stack_sz', read_manual_line cg' (fxn, stack_sz')
                 = Err (Exception ("Redeclared Function " ++ fxn)).
Proof.
  intros Hg. unfold read_manual_line at 1.
  rewrite (proj2 (dict_mem_false fxn (globals cg)) Hg).
  eexists. split; [done|]. split_and!.
  - intros u. rewrite lookup_cases. simpl. by rewrite dict_get_set_eq.
  - intros u m Hm. rewrite !lookup_cases. simpl.
    by rewrite dict_get_set_ne by done.
  - done.
  - intros sz'. unfold read_manual_line.
    rewrite (proj2 (dict_mem_true fxn _)); [done|].
    simpl. rewrite dict_get_set_eq. by eexists.
Qed.

Lemma read_manual_shadows_witness :
  dict_get "f"%string (globals local_f_graph) = None ∧
  lookup local_f_graph "a.c" "f" = Some (new_node "a.c" "f" "LOCAL") ∧
  ∃ cg', read_manual_line local_f_graph ("f"%string, 16) = Ok cg' ∧
    lookup cg' "a.c" "f" = Some (manual_node "f" 16) ∧
    read_manual_line cg' ("f"%string, 32)
      = Err (Exception ("Redeclared Function " ++ "f")).
Proof.
  split_and!; [reflexivity..|].
  destruct (read_manual_shadows local_f_graph "f" 16 eq_refl)
    as (cg' & Hread & Hlook & _ & _ & Hdup).
  exists cg'. split_and!; [exact Hread|exact (Hlook _)|exact (Hdup _)].
Defined.

(** ** Weak symbols *)

Lemma merge_weak_symbol_globals cg k n :
  dict_get n (globals (merge_weak_symbol cg k)) =
  match dict_get n (globals cg) with
  | Some g => Some g
  | None =>
      match dict_get k (weak cg) with
      | Some w => if decide (name w = n) then Some w else None
      | None => None
      end
  end.
Proof.
  unfold merge_weak_symbol.
  destruct (dict_get k (weak cg)) as [w|] eqn:Hk;
    [|by destruct (dict_get n (globals cg))].
  destruct (dict_mem (name w) (globals cg)) eqn:Hm.
  - apply dict_mem_true in Hm as [g Hg].
    destruct (dict_get n (globals cg)) eqn:Hn; [done|].
    rewrite decide_False; [done|]. intros <-. congruence.
  - apply dict_mem_false in Hm. simpl. rewrite dict_get_set.
    destruct (decide (name w = n)) as [<-|]; [by rewrite Hm|].
    by destruct (dict_get n (globals cg)).
Qed.

Lemma merge_weak_symbol_frame cg k :
  locals (merge_weak_symbol cg k) = locals cg ∧
  weak (merge_weak_symbol cg k) = weak cg.
Proof.
  unfold merge_weak_symbol. destruct (dict_get k (weak cg)); [|done].
  by destruct (dict_mem _ _).
Qed.

Lemma merge_weak_fold ks : ∀ cg,
  (∀ k w, dict_get k (weak cg) = Some w → name w = k) →
  locals (foldl merge_weak_symbol cg ks) = locals cg ∧
  weak (foldl merge_weak_symbol cg ks) = weak cg ∧
  ∀ n, dict_get n (globals (foldl merge_weak_symbol cg ks)) =
       match dict_get n (globals cg) with
       | Some g => Some g
       | None => if bool_decide (n ∈ ks) then dict_get n (weak cg) else None
       end.
Proof.
  induction ks as [|k ks IH]; intros cg Hkeyed; simpl.
  { split_and!; [done..|]. intros n. by destruct (dict_get n (globals cg)). }
  destruct (merge_weak_symbol_frame cg k) as [Hl Hw].
  destruct (IH (merge_weak_symbol cg k)) as (Hl' & Hw' & Hg').
  { by rewrite Hw. }
  split_and!; [congruence..|].
  intros n. rewrite Hg', merge_weak_symbol_globals, Hw.
  destruct (dict_get n (globals cg)) as [g|] eqn:Hn; [done|].
  destruct (dict_get k (weak cg)) as [w|] eqn:Hk.
  - pose proof (Hkeyed k w Hk) as Hname.
    destruct (decide (name w = n)) as [E|E].
    + assert (k = n) as -> by congruence.
      rewrite bool_decide_eq_true_2; [done|by left].
    + destruct (bool_decide_reflect (n ∈ ks)) as [Hin|Hin].
      * rewrite bool_decide_eq_true_2; [done|by right].
      * rewrite bool_decide_eq_false_2; [done|].
        intros [->|?]%elem_of_cons; [congruence|done].
  - destruct (bool_decide_reflect (n ∈ ks)) as [Hin|Hin].
    + rewrite bool_decide_eq_true_2; [done|by right].
    + destruct (bool_decide_reflect (n ∈ k :: ks)) as [Hin'|]; [|done].
      apply elem_of_cons in Hin' as [->|]; [by rewrite Hk|done].
Qed.

(** After the merge of the weak symbols a name is looked up among the
    globals first, then among the weak symbols, then among the locals of
    the unit: a weak symbol is seen where no global has its name, and it
    hides the locals of its name. *)
Theorem merge_weak_lookup cg u n :
  (∀ k w, dict_get k (weak cg) = Some w → name w = k) →
  lookup (merge_weak cg) u n =
  match dict_get n (globals cg) with
  | Some g => Some g
  | None =>
      match dict_get n (weak cg) with
      | Some w => Some w
      | None => deref cg (InLocals n u)
      end
  end.
Proof.
  intros Hkeyed. unfold merge_weak.
  destruct (merge_weak_fold (dict_keys (weak cg)) cg Hkeyed) as (Hl & _ & Hg).
  rewrite lookup_cases, Hg. simpl. rewrite Hl.
  destruct (dict_get n (globals cg)); [done|].
  destruct (dict_get n (weak cg)) as [w|] eqn:Hw.
  - rewrite bool_decide_eq_true_2; [done|].
    apply dict_get_is_Some. by rewrite Hw.
  - by destruct (bool_decide _).
Qed.

Lemma merge_weak_lookup_witness :
  (∀ k w, dict_get k (weak weak_f_graph) = Some w → name w = k) ∧
  lookup weak_f_graph "a.c" "f" = Some (new_node "a.c" "f" "LOCAL") ∧
  lookup (merge_weak weak_f_graph) "a.c" "f" = Some (new_node "a.c" "f" "WEAK").
Proof.
  assert (∀ k w, dict_get k (weak weak_f_graph) = Some w → name w = k) as H.
  { intros k w. simpl. destruct (decide _) as [<-|]; [|done]. by intros [= <-]. }
  split_and!; [exact H|reflexivity|].
  exact (merge_weak_lookup weak_f_graph "a.c" "f" H).
Defined.

(** ** What the readers keep *)

Lemma dict_keys_set {V} k (v : V) d :
  dict_keys (dict_set k v d) =
  if bool_decide (k ∈ dict_keys d) then dict_keys d else dict_keys d ++ [k].
Proof.
  unfold dict_keys. induction d as [|[k0 v0] d IH]; [done|].
  cbn [dict_set]. destruct (decide (k0 = k)) as [->|Hne].
  - cbn [fmap list_fmap fst]. rewrite bool_decide_eq_true_2; [done|by left].
  - cbn [fmap list_fmap fst] in *. rewrite IH.
    destruct (bool_decide_reflect (k ∈ d.*1)) as [Hin|Hin].
    + rewrite bool_decide_eq_true_2; [done|by right].
    + rewrite bool_decide_eq_false_2; [done|].
      intros [->|?]%elem_of_cons; done.
Qed.

Lemma dict_keys_set_NoDup {V} k (v : V) d :
  NoDup (dict_keys d) → NoDup (dict_keys (dict_set k v d)).
Proof.
  intros Hnd. rewrite dict_keys_set.
  destruct (bool_decide_reflect (k ∈ dict_keys d)) as [Hin|Hin]; [done|].
  apply NoDup_app. split_and!; [done| |apply NoDup_singleton].
  intros x Hx ->%list_elem_of_singleton. done.
Qed.

(** What [read_obj] stores for a symbol it accepts: the new record, under
    the name of the symbol, in the namespace of its binding. *)
Lemma read_obj_symbol_records t cg s cg' :
  read_obj_symbol t cg s = Ok cg' →
  (∀ n d, dict_get n (globals cg') = Some d →
     dict_get n (globals cg) = Some d ∨ d = new_node t n "GLOBAL") ∧
  (∀ n u d, deref cg' (InLocals n u) = Some d →
     deref cg (InLocals n u) = Some d ∨ (u = t ∧ d = new_node t n "LOCAL")) ∧
  (∀ n d, dict_get n (weak cg') = Some d →
     dict_get n (weak cg) = Some d ∨ d = new_node t n "WEAK") ∧
  (unique_keys cg → unique_keys cg').
Proof.
  unfold read_obj_symbol.
  destruct (String.eqb (Sym.type s) "FUNC"); [|intros [= <-]; by auto].
  destruct (String.eqb (Sym.binding s) "GLOBAL").
  { destruct (_ || _); [done|]. intros [= <-]. simpl.
    split_and!; auto. intros n d. rewrite dict_get_set.
    destruct (decide _) as [<-|]; [intros [= <-]|]; auto. }
  destruct (String.eqb (Sym.binding s) "LOCAL").
  { destruct (_ && _); [done|]. intros [= <-]. simpl.
    set (n0 := Sym.name s).
    set (ls := if dict_mem n0 (locals cg) then locals cg
               else dict_set n0 [] (locals cg)).
    assert (∀ m, dict_get m ls =
              if decide (n0 = m)
              then Some (default [] (dict_get m (locals cg)))
              else dict_get m (locals cg)) as Hls.
    { intros m. unfold ls. destruct (dict_mem n0 (locals cg)) eqn:Hm.
      - destruct (decide (n0 = m)) as [<-|]; [|done].
        apply dict_mem_true in Hm as [l ->]. done.
      - rewrite dict_get_set. destruct (decide (n0 = m)) as [<-|]; [|done].
        apply dict_mem_false in Hm. by rewrite Hm. }
    split_and!; auto.
    - intros n u d. rewrite dict_get_alter, Hls.
      destruct (decide (n0 = n)) as [<-|]; [|auto]. simpl.
      rewrite dict_get_set. destruct (decide (t = u)) as [<-|].
      + intros [= <-]. auto.
      + destruct (dict_get n0 (locals cg)); simpl; auto.
    - unfold unique_keys. simpl. rewrite dict_keys_alter. unfold ls.
      destruct (dict_mem n0 (locals cg)); [done|]. apply dict_keys_set_NoDup. }
  destruct (String.eqb (Sym.binding s) "WEAK"); [|done].
  destruct (dict_mem _ _); [done|]. intros [= <-]. simpl.
  split_and!; auto. intros n d. rewrite dict_get_set.
  destruct (decide _) as [<-|]; [intros [= <-]|]; auto.
Qed.

Lemma well_keyed_empty : well_keyed empty_graph.
Proof. by split. Qed.

Lemma read_obj_symbol_inv t cg s cg' :
  read_obj_symbol t cg s = Ok cg' →
  well_keyed cg ∧ unique_keys cg ∧ no_results cg →
  well_keyed cg' ∧ unique_keys cg' ∧ no_results cg'.
Proof.
  intros (Hg & Hl & Hw & Huk)%read_obj_symbol_records (Hkeyed & Hu & Hnr).
  split_and!; [split| |]; auto.
  - intros n d [Hd| ->]%Hg; [by apply (keyed_globals cg)|auto].
  - intros n u d [Hd|[-> ->]]%Hl; [by apply (keyed_locals cg)|auto].
  - intros n d [Hd| ->]%Hw; [by apply (keyed_weak cg)|auto].
  - intros [n|n u] d Hd.
    + apply Hg in Hd as [Hd| ->]; [by apply (Hnr (InGlobals n))|done].
    + apply Hl in Hd as [Hd|[-> ->]]; [by apply (Hnr (InLocals n u))|done].
Qed.

Lemma read_obj_inv t symbols : ∀ cg cg',
  read_obj cg t symbols = Ok cg' →
  well_keyed cg ∧ unique_keys cg ∧ no_results cg →
  well_keyed cg' ∧ unique_keys cg' ∧ no_results cg'.
Proof.
  unfold read_obj. induction symbols as [|s symbols IH]; intros cg cg' Hrun Hinv;
    simpl in Hrun.
  { by injection Hrun as <-. }
  bind_inv Hrun. eapply IH; [done|]. by eapply read_obj_symbol_inv.
Qed.
